(** * Protein-bead generator: lock-and-key hemispheres

    A shallow embedding of [make_protein_matching_toy.py] and the proofs of
    its geometric and control-flow properties.

    Conventions of the embedding.
    - Python floats are read as real numbers ([R]); rounding is not modelled.
    - The module-level user settings are gathered in the record [Settings];
      [USER_SETTINGS] holds the values written in the script.
    - The host (Blender's [bpy], [bmesh], [mathutils.noise]) and the seeded
      generator behind [random] are external: the operations the script
      calls are the fields of the record [Host].  A host operation the
      script guards with [except RuntimeError] returns an [option], [None]
      standing for the raised [RuntimeError].  The vertex positions of the
      cylinder, cone and cube primitives are written out, since the
      geometry of the keys rests on them; their faces stay with the host.
    - The shape names, strings that are all keys of [SHAPE_FACTORIES], are
      the constructors of [Shape]; counts and indices are natural numbers;
      object names are left out.
    - [log_message] formats a line and writes it to the log file or the
      console; the list of entries [log] keeps one constructor per message,
      with the values the message prints, and drops the timestamp.
    - The process-wide generator and the log are threaded explicitly through
      the monad [M]. *)

From Stdlib Require Import Reals Lra Lia List Bool Arith ZArith Permutation.
From Stdlib Require String.
Import String.StringSyntax.
Delimit Scope string_scope with string.
Import ListNotations.
Open Scope R_scope.

(** ** User settings *)

Inductive Shape := cylinder_shape | triangle_shape | square_shape | hexagon_shape.

Record Settings := {
  SPHERE_DIAMETER : R;
  WALL_THICKNESS : R;
  PEG_LENGTH : R;
  CLEARANCE : R;
  OVERLAP : R;
  BEAD_COUNT : nat;
  KEY_SHAPES : list Shape;
  SEED : Z;
  MAX_KEY_RADIUS : R;
  ADD_SURFACE_NOISE : bool;
  segments : nat;
  ring_count : nat
}.

Definition USER_SETTINGS : Settings := {|
  SPHERE_DIAMETER := 60;
  WALL_THICKNESS := 3;
  PEG_LENGTH := 20;
  CLEARANCE := 0.5;
  OVERLAP := 11;
  BEAD_COUNT := 4;
  KEY_SHAPES := [cylinder_shape; triangle_shape; square_shape; hexagon_shape];
  SEED := 2057;
  MAX_KEY_RADIUS := 6;
  ADD_SURFACE_NOISE := true;
  segments := 64;
  ring_count := 32
|}.

Definition KEYS_PER_BEAD (cfg : Settings) : nat := length (KEY_SHAPES cfg).
Definition OUTER_R (cfg : Settings) : R := SPHERE_DIAMETER cfg / 2.
Definition INNER_R (cfg : Settings) : R := OUTER_R cfg - WALL_THICKNESS cfg.
Definition noise_strength (cfg : Settings) : R := 0.3 * OUTER_R cfg.
Definition noise_scale (cfg : Settings) : R := 2 / OUTER_R cfg.

(** ** Vectors and meshes *)

Definition Vec3 : Type := R * R * R.
Definition Point : Type := R * R.

Definition vx (v : Vec3) : R := fst (fst v).
Definition vy (v : Vec3) : R := snd (fst v).
Definition vz (v : Vec3) : R := snd v.

Definition vadd (a b : Vec3) : Vec3 := (vx a + vx b, vy a + vy b, vz a + vz b).
Definition vscale (a : Vec3) (k : R) : Vec3 := (vx a * k, vy a * k, vz a * k).
Definition vlength (a : Vec3) : R := sqrt (vx a * vx a + vy a * vy a + vz a * vz a).

(** [Vector.normalized()]: the zero vector is returned as it is. *)
Definition normalized (a : Vec3) : Vec3 :=
  if Req_dec_T (vlength a) 0 then a else vscale a (/ vlength a).

(** [math.hypot] *)
Definition hypot (x y : R) : R := sqrt (x * x + y * y).

(** Distance of a vertex from the z-axis. *)
Definition planar_distance (v : Vec3) : R := hypot (vx v) (vy v).

Infix "+v" := vadd (at level 50, left associativity).
Infix "*v" := vscale (at level 40, left associativity).

Definition Faces : Type := list (list nat).

Record Mesh := { verts : list Vec3; faces : Faces }.

Definition set_verts (m : Mesh) (vs : list Vec3) : Mesh :=
  {| verts := vs; faces := faces m |}.

(** ** The seeded generator

    [random.random()] returns the next number of a sequence fixed by the
    seed; [random.uniform(a, b)] is [a + (b - a) * random()]. *)

Record Random := { draws : nat -> R; cursor : nat }.

Definition random (g : Random) : R * Random :=
  (draws g (cursor g), {| draws := draws g; cursor := S (cursor g) |}).

Definition uniform (a b : R) (g : Random) : R * Random :=
  let (u, g') := random g in (a + (b - a) * u, g').

(** ** Host objects *)

Inductive BoolOp := UNION | DIFFERENCE | INTERSECT.
Inductive Solver := FAST | EXACT.

(** A key object: the primitive built by a factory and its [location]. *)
Record Key := { key_data : Mesh; key_location : Vec3 }.

Record Modifier := {
  mod_object : Key;
  mod_operation : BoolOp;
  mod_solver : Solver
}.

(** A hemisphere object: its mesh and its modifier stack. *)
Record Hemisphere := { data : Mesh; modifiers : list Modifier }.

Record Host := {
  seeded : Z -> nat -> R;
  noise : Vec3 -> R;
  primitive_uv_sphere_add : nat -> nat -> R -> Mesh;
  bisect : Vec3 -> Mesh -> Mesh;
  prism_faces : nat -> Faces;
  cube_faces : Faces;
  modifier_apply : Hemisphere -> Modifier -> option Mesh;
  remove_doubles : Mesh -> option Mesh;
  normals_make_consistent : Mesh -> option Mesh;
  export_mesh_stl : Hemisphere -> bool
}.

(** ** Log entries, one constructor per message of the script *)

Inductive LogEntry :=
| LogStarted
| LogFileCreated
| LogAddingNoise
| LogNoiseApplied
| LogKey (i : nat) (shape : Shape) (x y : R)
| LogApplying (op : BoolOp)
| LogBooleanOk
| LogBooleanError
| LogCleanup
| LogCleanupOk
| LogCleanupError
| LogTopHalf (idx : nat)
| LogBottomHalf (idx : nat)
| LogExporting (idx : nat)
| LogExport (is_top : bool) (idx : nat)
| LogExportOk
| LogExportError
| LogLayout (idx : nat)
| LogLayoutKey (shape : Shape) (x y : R)
| LogRule
| LogFinished
| LogCritical
| LogTraceback
| LogTracebackText.

(** ** The state-and-exception monad of the script *)

Inductive Exn := ZeroDivisionError.

Inductive Result (A : Type) :=
| Ok (a : A)
| Raise (e : Exn).
Arguments Ok {A} a.
Arguments Raise {A} e.

Record World := { rng : Random; log : list LogEntry }.

Definition M (A : Type) : Type := World -> Result A * World.

Definition ret {A} (a : A) : M A := fun w => (Ok a, w).

Definition bind {A B} (c : M A) (k : A -> M B) : M B :=
  fun w => match c w with
           | (Ok a, w') => k a w'
           | (Raise e, w') => (Raise e, w')
           end.

Definition lift {A} (r : Result A) : M A := fun w => (r, w).

Notation "x <- c ;; k" := (bind c (fun x => k))
  (at level 61, c at next level, right associativity).
Notation "c ;;; k" := (bind c (fun _ => k))
  (at level 61, right associativity).

Definition log_message (e : LogEntry) : M unit :=
  fun w => (Ok tt, {| rng := rng w; log := log w ++ [e] |}).

Definition with_random {A} (f : Random -> A * Random) : M A :=
  fun w => let (a, g) := f (rng w) in (Ok a, {| rng := g; log := log w |}).

(** ** The script *)

Section Generator.

Variable cfg : Settings.
Variable host : Host.

(** In-place update of one cell of a vertex store. *)
Fixpoint set_nth {A} (i : nat) (a : A) (l : list A) : list A :=
  match l, i with
  | [], _ => []
  | _ :: t, O => a :: t
  | h :: t, S j => h :: set_nth j a t
  end.

(** The body of the displacement loop of [make_noisy_sphere] for one
    vertex coordinate [co]. *)
Definition displace (co : Vec3) : Vec3 :=
  let n := noise host (co *v noise_scale cfg) in
  co +v (normalized co *v n *v noise_strength cfg).

(** [for v in bm.verts: v.co += ...], the vertices visited in [order]:
    each visit reads the cell of the store and writes it back. *)
Fixpoint displace_loop (order : list nat) (store : list Vec3) : list Vec3 :=
  match order with
  | [] => store
  | i :: rest =>
      displace_loop rest
        (match nth_error store i with
         | Some co => set_nth i (displace co) store
         | None => store
         end)
  end.

Definition make_noisy_sphere : Mesh :=
  let mesh := primitive_uv_sphere_add host (segments cfg) (ring_count cfg) (OUTER_R cfg) in
  set_verts mesh (displace_loop (seq 0 (length (verts mesh))) (verts mesh)).

Definition make_solid_hemisphere (is_top : bool) : M Hemisphere :=
  hemisphere <-
    (if ADD_SURFACE_NOISE cfg then
       log_message LogAddingNoise ;;;
       let hemisphere := make_noisy_sphere in
       log_message LogNoiseApplied ;;;
       ret hemisphere
     else
       ret (primitive_uv_sphere_add host 64 32 (OUTER_R cfg))) ;;
  let plane_no : Vec3 := if is_top then (0, 0, 1) else (0, 0, -1) in
  ret {| data := bisect host plane_no hemisphere; modifiers := [] |}.

(** *** Primitive factories

    The host primitives put [vertices] points on a circle of the given
    radius at each end of the depth, and the cube puts its corners at
    half the size along every axis; all are centred at the origin. *)

Definition ring_vertex (radius : R) (vertices k : nat) (z : R) : Vec3 :=
  let phi := INR k * (2 * PI / INR vertices) in
  (radius * sin phi, radius * cos phi, z).

Definition primitive_cone_add (radius1 radius2 depth : R) (vertices : nat) : Mesh :=
  {| verts := flat_map (fun k => [ring_vertex radius1 vertices k (- (depth / 2));
                                  ring_vertex radius2 vertices k (depth / 2)])
                       (seq 0 vertices);
     faces := prism_faces host vertices |}.

Definition primitive_cylinder_add (radius depth : R) (vertices : nat) : Mesh :=
  primitive_cone_add radius radius depth vertices.

Definition primitive_cube_add (size : R) : Mesh :=
  let o := size / 2 in
  {| verts := [(-o, -o, -o); (-o, -o, o); (-o, o, -o); (-o, o, o);
               (o, -o, -o); (o, -o, o); (o, o, -o); (o, o, o)];
     faces := cube_faces host |}.

(** [obj.scale.z = s] followed by [transform_apply(scale=True)]. *)
Definition apply_scale_z (s : R) (m : Mesh) : Mesh :=
  set_verts m (map (fun v => (vx v, vy v, vz v * s)) (verts m)).

Definition cylinder (radius height : R) : Result Mesh :=
  Ok (primitive_cylinder_add radius height 32).

Definition triangular_prism (radius height : R) : Result Mesh :=
  Ok (primitive_cone_add radius radius height 3).

Definition square_prism (radius height : R) : Result Mesh :=
  let obj := primitive_cube_add (radius * 2) in
  if Req_dec_T (radius * 2) 0 then Raise ZeroDivisionError
  else Ok (apply_scale_z (height / (radius * 2)) obj).

Definition hexagon (radius height : R) : Result Mesh :=
  Ok (primitive_cylinder_add radius height 6).

Definition SHAPE_FACTORIES (shape : Shape) : R -> R -> Result Mesh :=
  match shape with
  | cylinder_shape => cylinder
  | triangle_shape => triangular_prism
  | square_shape => square_prism
  | hexagon_shape => hexagon
  end.

(** *** Key placement *)

Definition separated (x y : R) (c : Point) : bool :=
  if Rlt_dec (MAX_KEY_RADIUS cfg * 2) (hypot (x - fst c) (y - snd c))
  then true else false.

(** One candidate: the two [random.uniform] draws and the conversion from
    polar coordinates. *)
Definition candidate (g : Random) : Point * Random :=
  let usable_radius_for_keys := INNER_R cfg - MAX_KEY_RADIUS cfg in
  let (r, g1) := uniform 0 usable_radius_for_keys g in
  let (ang, g2) := uniform 0 (2 * PI) g1 in
  ((r * cos ang, r * sin ang), g2).

(** The [while] loop; [fuel] bounds the number of iterations. *)
Fixpoint place_loop (fuel n : nat) (coords : list Point) (attempts : nat)
    (g : Random) : list Point * nat * Random :=
  match fuel with
  | O => (coords, attempts, g)
  | S fuel' =>
      if (length coords <? n)%nat && (attempts <? 1000)%nat then
        let '((x, y), g') := candidate g in
        let coords' :=
          if forallb (separated x y) coords then coords ++ [(x, y)] else coords in
        place_loop fuel' n coords' (S attempts) g'
      else (coords, attempts, g)
  end.

(** The loop run from the initial state, with the attempt counter kept. *)
Definition place_run (n : nat) (g : Random) : list Point * nat * Random :=
  place_loop 1000 n [] 0 g.

Definition random_key_positions (n : nat) (g : Random) : list Point * Random :=
  let '(coords, _, g') := place_run n g in (coords, g').

(** *** Boolean helper and key assembly *)

Definition KeySpec : Type := Shape * Point.

Definition boolean (target : Hemisphere) (tool : Key) (op_type : BoolOp)
  : M Hemisphere :=
  let modifier := {| mod_object := tool; mod_operation := op_type; mod_solver := FAST |} in
  let target1 := {| data := data target; modifiers := modifiers target ++ [modifier] |} in
  log_message (LogApplying op_type) ;;;
  match modifier_apply host target1 modifier with
  | Some m =>
      log_message LogBooleanOk ;;;
      ret {| data := m; modifiers := modifiers target |}
  | None =>
      log_message LogBooleanError ;;;
      ret target1
  end.

Definition peg_radius : R := MAX_KEY_RADIUS cfg.
Definition peg_height : R := PEG_LENGTH cfg.
Definition socket_radius : R := MAX_KEY_RADIUS cfg + CLEARANCE cfg.
Definition socket_height : R := PEG_LENGTH cfg + CLEARANCE cfg.

(** The key of the [is_top] branch: factory call and [key.location]. *)
Definition peg_key (shape : Shape) (x y : R) : Result Key :=
  let factory := SHAPE_FACTORIES shape in
  let radius := peg_radius in
  let height := peg_height in
  match factory radius height with
  | Ok key =>
      let key_z := - (height / 2 - OVERLAP cfg) in
      Ok {| key_data := key; key_location := (x, y, key_z) |}
  | Raise e => Raise e
  end.

(** The key of the [else] branch. *)
Definition socket_key (shape : Shape) (x y : R) : Result Key :=
  let factory := SHAPE_FACTORIES shape in
  let radius := socket_radius in
  let height := socket_height in
  match factory radius height with
  | Ok key =>
      let key_z := height / 2 - OVERLAP cfg in
      Ok {| key_data := key; key_location := (x, y, key_z) |}
  | Raise e => Raise e
  end.

(** Vertices of a key in the frame of the hemisphere. *)
Definition key_world_verts (k : Key) : list Vec3 :=
  map (fun v => key_location k +v v) (verts (key_data k)).

(** The body of the [for] loop of [add_keys] for the [i]-th key. *)
Definition add_key (hemisphere : Hemisphere) (i : nat) (spec : KeySpec)
    (is_top : bool) : M Hemisphere :=
  let '(shape, (x, y)) := spec in
  log_message (LogKey i shape x y) ;;;
  if is_top then
    key <- lift (peg_key shape x y) ;;
    boolean hemisphere key UNION
  else
    key <- lift (socket_key shape x y) ;;
    boolean hemisphere key DIFFERENCE.

Fixpoint add_keys_loop (hemisphere : Hemisphere) (i : nat)
    (key_specs : list KeySpec) (is_top : bool) : M Hemisphere :=
  match key_specs with
  | [] => ret hemisphere
  | spec :: rest =>
      hemisphere' <- add_key hemisphere i spec is_top ;;
      add_keys_loop hemisphere' (S i) rest is_top
  end.

Definition set_data (h : Hemisphere) (m : Mesh) : Hemisphere :=
  {| data := m; modifiers := modifiers h |}.

Definition mesh_cleanup (hemisphere : Hemisphere) : M Hemisphere :=
  log_message LogCleanup ;;;
  match remove_doubles host (data hemisphere) with
  | None => log_message LogCleanupError ;;; ret hemisphere
  | Some m1 =>
      match normals_make_consistent host m1 with
      | None => log_message LogCleanupError ;;; ret (set_data hemisphere m1)
      | Some m2 => log_message LogCleanupOk ;;; ret (set_data hemisphere m2)
      end
  end.

Definition add_keys (hemisphere : Hemisphere) (key_specs : list KeySpec)
    (is_top : bool) : M Hemisphere :=
  hemisphere' <- add_keys_loop hemisphere 1 key_specs is_top ;;
  mesh_cleanup hemisphere'.

(** *** Export and the main loop *)

Definition export_stl (obj : Hemisphere) (is_top : bool) (idx : nat) : M unit :=
  log_message (LogExport is_top idx) ;;;
  if export_mesh_stl host obj then log_message LogExportOk
  else log_message LogExportError.

Record BeadPair := {
  top : Hemisphere;
  bottom : Hemisphere;
  bead_specs : list KeySpec
}.

Fixpoint log_layout (specs : list KeySpec) : M unit :=
  match specs with
  | [] => ret tt
  | (s, (x, y)) :: rest => log_message (LogLayoutKey s x y) ;;; log_layout rest
  end.

(** The body of [for idx in range(1, BEAD_COUNT + 1)]. *)
Definition bead_step (idx : nat) : M BeadPair :=
  coords <- with_random (random_key_positions (KEYS_PER_BEAD cfg)) ;;
  let specs := combine (KEY_SHAPES cfg) coords in
  log_message (LogTopHalf idx) ;;;
  top0 <- make_solid_hemisphere true ;;
  top1 <- add_keys top0 specs true ;;
  log_message (LogBottomHalf idx) ;;;
  bottom0 <- make_solid_hemisphere false ;;
  bottom1 <- add_keys bottom0 specs false ;;
  log_message (LogExporting idx) ;;;
  export_stl top1 true idx ;;;
  export_stl bottom1 false idx ;;;
  log_message (LogLayout idx) ;;;
  log_layout specs ;;;
  log_message LogRule ;;;
  ret {| top := top1; bottom := bottom1; bead_specs := specs |}.

Fixpoint bead_loop (idxs : list nat) : M (list BeadPair) :=
  match idxs with
  | [] => ret []
  | idx :: rest =>
      b <- bead_step idx ;;
      bs <- bead_loop rest ;;
      ret (b :: bs)
  end.

(** [random.seed(SEED)] *)
Definition seed_random : M unit :=
  fun w => (Ok tt, {| rng := {| draws := seeded host (SEED cfg); cursor := 0 |};
                      log := log w |}).

(** [generate_beads]: [output_dir] tells whether [get_output_dir] found a
    directory, [log_opened] whether the log file could be opened.  The
    result lists the beads of a run that reached its end. *)
Definition generate_beads (output_dir log_opened : bool) (w : World)
  : option (list BeadPair) * World :=
  if negb output_dir then (None, w)
  else
    let w0 :=
      if log_opened
      then {| rng := rng w; log := log w ++ [LogStarted; LogFileCreated] |}
      else w in
    match (seed_random ;;;
           beads <- bead_loop (seq 1 (BEAD_COUNT cfg)) ;;
           log_message LogFinished ;;;
           ret beads) w0 with
    | (Ok beads, w1) => (Some beads, w1)
    | (Raise _, w1) =>
        (None, {| rng := rng w1;
                  log := log w1 ++ [LogCritical; LogTraceback; LogTracebackText] |})
    end.

End Generator.

(** ** Vocabulary of the statements *)

(** One step of the placement loop on the accepted list. *)
Definition place_step (cfg : Settings) (coords : list Point) (g : Random)
  : list Point * Random :=
  let '((x, y), g') := candidate cfg g in
  (if forallb (separated cfg x y) coords then coords ++ [(x, y)] else coords, g').

(** The accepted list and the generator after [k] iterations of the loop
    body from the initial state, the test of the loop left aside. *)
Fixpoint place_iter (cfg : Settings) (k : nat) (g : Random)
  : list Point * Random :=
  match k with
  | O => ([], g)
  | S k' => place_step cfg (fst (place_iter cfg k' g)) (snd (place_iter cfg k' g))
  end.

(** Centre-to-centre distance of two key positions. *)
Definition distance (p q : Point) : R := hypot (fst q - fst p) (snd q - snd p).

(** [q] lies farther than the separation from the earlier point [p]. *)
Definition apart (cfg : Settings) (p q : Point) : Prop :=
  MAX_KEY_RADIUS cfg * 2 < distance p q.

(** The radius of the disk the candidates are drawn from. *)
Definition usable_radius (cfg : Settings) : R := INNER_R cfg - MAX_KEY_RADIUS cfg.

(** The candidate as the specification words it: radius
    [U * sqrt(uniform(0,1))], angle uniform in [0, 2 pi). *)
Definition spec_candidate (cfg : Settings) (g : Random) : Point :=
  let (u1, g1) := random g in
  let (u2, _) := random g1 in
  let r := usable_radius cfg * sqrt u1 in
  let ang := 2 * PI * u2 in
  (r * cos ang, r * sin ang).

(** No factory call of [add_keys] divides by zero. *)
Definition radii_nonzero (cfg : Settings) : Prop :=
  peg_radius cfg <> 0 /\ socket_radius cfg <> 0.

(** The key specs announced by the [LogKey] entries of a log, in order. *)
Fixpoint logged_keys (l : list LogEntry) : list KeySpec :=
  match l with
  | [] => []
  | LogKey _ shape x y :: rest => (shape, (x, y)) :: logged_keys rest
  | _ :: rest => logged_keys rest
  end.

(** The number of boolean evaluations a log records. *)
Fixpoint evaluations (l : list LogEntry) : nat :=
  match l with
  | [] => O
  | LogApplying _ :: rest => S (evaluations rest)
  | _ :: rest => evaluations rest
  end.

(** The result of a factory call seen through a function of its value. *)
Definition map_result {A B} (f : A -> B) (r : Result A) : Result B :=
  match r with
  | Ok a => Ok (f a)
  | Raise e => Raise e
  end.

(** The modifier [boolean] creates for a tool, and the target carrying it. *)
Definition bool_modifier (tool : Key) (op_type : BoolOp) : Modifier :=
  {| mod_object := tool; mod_operation := op_type; mod_solver := FAST |}.

Definition with_modifier (target : Hemisphere) (m : Modifier) : Hemisphere :=
  {| data := data target; modifiers := modifiers target ++ [m] |}.

(** The entries logged while one half is built. *)
Definition inside_half (e : LogEntry) : bool :=
  match e with
  | LogAddingNoise | LogNoiseApplied | LogKey _ _ _ _ | LogApplying _
  | LogBooleanOk | LogBooleanError | LogCleanup | LogCleanupOk
  | LogCleanupError => true
  | _ => false
  end.

(** [c] run in [w] returns [a] without raising, leaves the generator in
    state [g] and appends the entries [l] to the log. *)
Definition yields {A} (c : M A) (w : World) (a : A) (g : Random)
    (l : list LogEntry) : Prop :=
  c w = (Ok a, {| rng := g; log := log w ++ l |}).

(** *** Concrete inputs *)

(** A generator that always returns the same number. *)
Definition constant_random (u : R) : Random :=
  {| draws := fun _ => u; cursor := 0 |}.

(** A generator whose draws are 1/4, 0, 3/4, 1/2, 0, 0, ... *)
Definition two_point_random : Random :=
  {| draws := fun k => match k with
                       | O => 1 / 4
                       | 2%nat => 3 / 4
                       | 3%nat => 1 / 2
                       | _ => 0
                       end;
     cursor := 0 |}.

(** A host on which every boolean evaluation fails. *)
Definition failing_host : Host := {|
  seeded := fun _ _ => 0;
  noise := fun _ => 1;
  primitive_uv_sphere_add := fun _ _ r => {| verts := [(0, 0, r); (0, 0, - r)]; faces := [] |};
  bisect := fun _ m => m;
  prism_faces := fun _ => [];
  cube_faces := [];
  modifier_apply := fun _ _ => None;
  remove_doubles := fun m => Some m;
  normals_make_consistent := fun m => Some m;
  export_mesh_stl := fun _ => true
|}.

Definition empty_world (g : Random) : World := {| rng := g; log := [] |}.

(** ** The output directory

    [get_output_dir] works on the file system: [os.path.dirname],
    [os.path.join], [tempfile.gettempdir] and [os.makedirs] are the fields
    of [FileSystem], [makedirs] answering [false] for a raised [OSError].
    The lines it prints are returned with its result. *)







(** ** More vocabulary *)

(** [c] run in [w] raises [e], leaving the generator in state [g] and the
    entries [l] appended to the log. *)
Definition raises {A} (c : M A) (w : World) (e : Exn) (g : Random)
    (l : list LogEntry) : Prop :=
  c w = (Raise e, {| rng := g; log := log w ++ l |}).

(** [c] only appends to the log, whether it returns or raises. *)
Definition grows {A} (c : M A) : Prop :=
  forall w, exists l, log (snd (c w)) = log w ++ l.

(** Boolean evaluations a log reports as applied, resp. as failed. *)
Fixpoint successes (l : list LogEntry) : nat :=
  match l with
  | [] => O
  | LogBooleanOk :: rest => S (successes rest)
  | _ :: rest => successes rest
  end.

Fixpoint failures (l : list LogEntry) : nat :=
  match l with
  | [] => O
  | LogBooleanError :: rest => S (failures rest)
  | _ :: rest => failures rest
  end.

(** The numbers under which a log announces its keys. *)
Fixpoint logged_indices (l : list LogEntry) : list nat :=
  match l with
  | [] => []
  | LogKey i _ _ _ :: rest => i :: logged_indices rest
  | _ :: rest => logged_indices rest
  end.

(** The key [add_key] builds for a spec, and the operation it applies. *)
Definition build_key (cfg : Settings) (host : Host) (is_top : bool)
    (spec : KeySpec) : Result Key :=
  if is_top then peg_key cfg host (fst spec) (fst (snd spec)) (snd (snd spec))
  else socket_key cfg host (fst spec) (fst (snd spec)) (snd (snd spec)).

Definition key_operation (is_top : bool) : BoolOp :=
  if is_top then UNION else DIFFERENCE.

(** [u] is the image of [v] under the scaling of the plane by [k] about
    the point (x, y). *)
Definition scaled_about (x y k : R) (u v : Vec3) : Prop :=
  vx u - x = k * (vx v - x) /\ vy u - y = k * (vy v - y).

(** The generator [g] after [k] more candidates. *)
Definition skip (g : Random) (k : nat) : Random :=
  {| draws := draws g; cursor := (cursor g + 2 * k)%nat |}.

(** The [k]-th candidate the planner draws from [g]. *)
Definition nth_candidate (cfg : Settings) (g : Random) (k : nat) : Point :=
  fst (candidate cfg (skip g k)).

(** *** More concrete inputs *)

(** Settings with a zero key radius and the square as first shape. *)
Definition ZERO_RADIUS_SETTINGS : Settings := {|
  SPHERE_DIAMETER := 60;
  WALL_THICKNESS := 3;
  PEG_LENGTH := 20;
  CLEARANCE := 0.5;
  OVERLAP := 11;
  BEAD_COUNT := 4;
  KEY_SHAPES := [square_shape; cylinder_shape];
  SEED := 2057;
  MAX_KEY_RADIUS := 0;
  ADD_SURFACE_NOISE := true;
  segments := 64;
  ring_count := 32
|}.

(** Settings without any key shape. *)
Definition NO_KEY_SETTINGS : Settings := {|
  SPHERE_DIAMETER := 60;
  WALL_THICKNESS := 3;
  PEG_LENGTH := 20;
  CLEARANCE := 0.5;
  OVERLAP := 11;
  BEAD_COUNT := 4;
  KEY_SHAPES := [];
  SEED := 2057;
  MAX_KEY_RADIUS := 6;
  ADD_SURFACE_NOISE := true;
  segments := 64;
  ring_count := 32
|}.

(** A host on which every boolean evaluation succeeds: the evaluated mesh
    is the target's with the vertices of the tool appended. *)
Definition appending_host : Host := {|
  seeded := fun _ _ => 0;
  noise := fun _ => 1;
  primitive_uv_sphere_add := fun _ _ r => {| verts := [(0, 0, r); (0, 0, - r)]; faces := [] |};
  bisect := fun _ m => m;
  prism_faces := fun _ => [];
  cube_faces := [];
  modifier_apply := fun t m =>
    Some {| verts := verts (data t) ++ key_world_verts (mod_object m);
            faces := faces (data t) |};
  remove_doubles := fun m => Some m;
  normals_make_consistent := fun m => Some m;
  export_mesh_stl := fun _ => true
|}.



(** ** Properties of the key placement planner *)

Section Planner.

Variable cfg : Settings.

Lemma random_eq (g : Random) :
  random g = (draws g (cursor g), {| draws := draws g; cursor := S (cursor g) |}).
Proof. reflexivity. Qed.

Lemma candidate_eq (g : Random) :
  candidate cfg g =
  (((0 + (usable_radius cfg - 0) * draws g (cursor g))
      * cos (0 + (2 * PI - 0) * draws g (S (cursor g))),
    (0 + (usable_radius cfg - 0) * draws g (cursor g))
      * sin (0 + (2 * PI - 0) * draws g (S (cursor g)))),
   {| draws := draws g; cursor := S (S (cursor g)) |}).
Proof. reflexivity. Qed.

Lemma candidate_cursor (g : Random) :
  cursor (snd (candidate cfg g)) = (cursor g + 2)%nat.
Proof. rewrite candidate_eq. simpl. lia. Qed.

Lemma place_loop_O n coords attempts g :
  place_loop cfg 0 n coords attempts g = (coords, attempts, g).
Proof. reflexivity. Qed.

Lemma place_loop_S fuel n coords attempts g :
  place_loop cfg (S fuel) n coords attempts g =
  if (length coords <? n)%nat && (attempts <? 1000)%nat then
    place_loop cfg fuel n (fst (place_step cfg coords g)) (S attempts)
               (snd (place_step cfg coords g))
  else (coords, attempts, g).
Proof.
  unfold place_step. simpl.
  destruct (candidate cfg g) as [[x y] g']. reflexivity.
Qed.

(** The rule of the loop: what every iteration preserves holds at exit. *)
Lemma place_loop_rule (n : nat) (I : list Point -> nat -> Random -> Prop) :
  (forall coords attempts g,
      (length coords < n)%nat -> (attempts < 1000)%nat ->
      I coords attempts g ->
      I (fst (place_step cfg coords g)) (S attempts) (snd (place_step cfg coords g))) ->
  forall fuel coords attempts g,
    I coords attempts g ->
    I (fst (fst (place_loop cfg fuel n coords attempts g)))
      (snd (fst (place_loop cfg fuel n coords attempts g)))
      (snd (place_loop cfg fuel n coords attempts g)).
Proof.
  intros Hstep fuel.
  induction fuel as [|fuel IH]; intros coords attempts g HI.
  - exact HI.
  - rewrite place_loop_S.
    destruct (length coords <? n)%nat eqn:Hlen; simpl; [|exact HI].
    destruct (attempts <? 1000)%nat eqn:Hatt; simpl; [|exact HI].
    apply IH, Hstep; auto.
    + now apply Nat.ltb_lt.
    + now apply Nat.ltb_lt.
Qed.

(** With enough fuel the loop leaves through its own test. *)
Lemma place_loop_exit n fuel coords attempts g :
  (1000 <= attempts + fuel)%nat ->
  (length (fst (fst (place_loop cfg fuel n coords attempts g))) <? n)%nat
  && (snd (fst (place_loop cfg fuel n coords attempts g)) <? 1000)%nat = false.
Proof.
  revert coords attempts g.
  induction fuel as [|fuel IH]; intros coords attempts g Hfuel.
  - rewrite place_loop_O. simpl.
    replace (attempts <? 1000)%nat with false.
    + apply andb_false_r.
    + symmetry. apply Nat.ltb_ge. lia.
  - rewrite place_loop_S.
    destruct ((length coords <? n)%nat && (attempts <? 1000)%nat) eqn:Hc.
    + apply IH. lia.
    + simpl. exact Hc.
Qed.

Lemma place_step_length coords g :
  (length coords <= length (fst (place_step cfg coords g)) <= S (length coords))%nat.
Proof.
  unfold place_step. destruct (candidate cfg g) as [[x y] g'].
  destruct (forallb (separated cfg x y) coords); simpl.
  - rewrite length_app. simpl. lia.
  - lia.
Qed.

Lemma place_step_extends coords g :
  exists extra, fst (place_step cfg coords g) = coords ++ extra.
Proof.
  unfold place_step. destruct (candidate cfg g) as [[x y] g'].
  destruct (forallb (separated cfg x y) coords); simpl.
  - now exists [(x, y)].
  - exists []. now rewrite app_nil_r.
Qed.

Lemma place_step_rng coords g :
  snd (place_step cfg coords g) = snd (candidate cfg g).
Proof.
  unfold place_step. now destruct (candidate cfg g) as [[x y] g'].
Qed.

Lemma separated_apart x y c :
  separated cfg x y c = true <-> apart cfg c (x, y).
Proof.
  unfold separated, apart, distance. simpl.
  destruct (Rlt_dec _ _); split; intros; auto; discriminate.
Qed.

Lemma ForallOrdPairs_snoc {A} (P : A -> A -> Prop) (l : list A) (a : A) :
  ForallOrdPairs P l -> Forall (fun c => P c a) l -> ForallOrdPairs P (l ++ [a]).
Proof.
  induction 1 as [|c l Hc Hl IH]; intros Ha; simpl.
  - constructor; constructor.
  - inversion Ha; subst. constructor.
    + apply Forall_app. split; auto.
    + auto.
Qed.

Lemma place_step_apart coords g :
  ForallOrdPairs (apart cfg) coords ->
  ForallOrdPairs (apart cfg) (fst (place_step cfg coords g)).
Proof.
  intros H. unfold place_step. destruct (candidate cfg g) as [[x y] g'].
  destruct (forallb (separated cfg x y) coords) eqn:Hall; simpl; auto.
  apply ForallOrdPairs_snoc; auto.
  apply Forall_forall. intros c Hc.
  apply separated_apart. rewrite forallb_forall in Hall. auto.
Qed.

(** The rule specialised to the run from the initial state. *)
Lemma place_run_rule (n : nat) (g : Random)
    (I : list Point -> nat -> Random -> Prop) :
  I [] 0%nat g ->
  (forall coords attempts g0,
      (length coords < n)%nat -> (attempts < 1000)%nat ->
      I coords attempts g0 ->
      I (fst (place_step cfg coords g0)) (S attempts)
        (snd (place_step cfg coords g0))) ->
  I (fst (fst (place_run cfg n g))) (snd (fst (place_run cfg n g)))
    (snd (place_run cfg n g)).
Proof.
  intros H0 Hstep. exact (place_loop_rule n I Hstep 1000%nat [] 0%nat g H0).
Qed.

Lemma place_run_length n g :
  (length (fst (fst (place_run cfg n g))) <= n)%nat.
Proof.
  refine (place_run_rule n g (fun coords _ _ => (length coords <= n)%nat) _ _).
  - simpl. lia.
  - intros coords attempts g0 Hlen _ _.
    pose proof (place_step_length coords g0). lia.
Qed.

Lemma place_run_attempts n g :
  (snd (fst (place_run cfg n g)) <= 1000)%nat.
Proof.
  refine (place_run_rule n g (fun _ attempts _ => (attempts <= 1000)%nat) _ _).
  - lia.
  - intros; lia.
Qed.

Lemma place_run_cursor n g :
  cursor (snd (place_run cfg n g)) =
  (cursor g + 2 * snd (fst (place_run cfg n g)))%nat.
Proof.
  refine (place_run_rule n g
            (fun _ attempts g' => cursor g' = (cursor g + 2 * attempts)%nat) _ _).
  - lia.
  - intros coords attempts g0 _ _ H.
    rewrite place_step_rng, candidate_cursor. lia.
Qed.

Lemma place_run_draws n g :
  draws (snd (place_run cfg n g)) = draws g.
Proof.
  refine (place_run_rule n g (fun _ _ g' => draws g' = draws g) _ _).
  - reflexivity.
  - intros coords attempts g0 _ _ H.
    rewrite place_step_rng, candidate_eq. exact H.
Qed.

Lemma place_run_apart n g :
  ForallOrdPairs (apart cfg) (fst (fst (place_run cfg n g))).
Proof.
  refine (place_run_rule n g
            (fun coords _ _ => ForallOrdPairs (apart cfg) coords) _ _).
  - apply FOP_nil.
  - intros coords attempts g0 _ _ H. now apply place_step_apart.
Qed.

Lemma place_run_test n g :
  (length (fst (fst (place_run cfg n g))) <? n)%nat
  && (snd (fst (place_run cfg n g)) <? 1000)%nat = false.
Proof.
  assert (Hfuel : (1000 <= 0 + 1000)%nat) by lia.
  exact (place_loop_exit n 1000%nat [] 0%nat g Hfuel).
Qed.

Lemma place_run_exit n g :
  length (fst (fst (place_run cfg n g))) = n \/
  snd (fst (place_run cfg n g)) = 1000%nat.
Proof.
  pose proof (place_run_test n g) as H.
  pose proof (place_run_length n g) as Hlen.
  pose proof (place_run_attempts n g) as Hatt.
  apply andb_false_iff in H. destruct H as [H|H]; apply Nat.ltb_ge in H.
  - left. lia.
  - right. lia.
Qed.

Lemma random_key_positions_fst n g :
  fst (random_key_positions cfg n g) = fst (fst (place_run cfg n g)).
Proof.
  unfold random_key_positions.
  now destruct (place_run cfg n g) as [[coords attempts] g'].
Qed.

Lemma random_key_positions_snd n g :
  snd (random_key_positions cfg n g) = snd (place_run cfg n g).
Proof.
  unfold random_key_positions.
  now destruct (place_run cfg n g) as [[coords attempts] g'].
Qed.

Lemma place_run_unfold n g :
  place_run cfg n g = place_loop cfg 1000 n [] 0 g.
Proof. reflexivity. Qed.

Lemma place_loop_extends fuel n coords attempts g :
  exists extra,
    fst (fst (place_loop cfg fuel n coords attempts g)) = coords ++ extra.
Proof.
  refine (place_loop_rule n (fun c _ _ => exists extra, c = coords ++ extra)
            _ fuel coords attempts g _).
  - intros c a g0 _ _ [extra ->].
    destruct (place_step_extends (coords ++ extra) g0) as [more ->].
    exists (extra ++ more). now rewrite app_assoc.
  - exists []. now rewrite app_nil_r.
Qed.

(** The first iteration of a run that asks for at least one point. *)
Lemma place_run_first n g :
  (1 <= n)%nat ->
  place_run cfg n g =
  place_loop cfg 999 n [fst (candidate cfg g)] 1 (snd (candidate cfg g)).
Proof.
  intros Hn. rewrite place_run_unfold.
  change 1000%nat with (S 999) at 1.
  rewrite place_loop_S.
  replace (length (@nil Point) <? n)%nat with true
    by (symmetry; apply Nat.ltb_lt; simpl; lia).
  replace (0 <? 1000)%nat with true by (symmetry; apply Nat.ltb_lt; lia).
  cbv [andb]. unfold place_step.
  destruct (candidate cfg g) as [[x y] g']. reflexivity.
Qed.

(** An iteration whose candidate is accepted, resp. rejected. *)
Lemma place_step_accept coords g :
  Forall (fun c => apart cfg c (fst (candidate cfg g))) coords ->
  place_step cfg coords g = (coords ++ [fst (candidate cfg g)], snd (candidate cfg g)).
Proof.
  intros H. unfold place_step. destruct (candidate cfg g) as [[x y] g']. simpl in *.
  replace (forallb (separated cfg x y) coords) with true; [reflexivity|].
  symmetry. apply forallb_forall. intros c Hc. apply separated_apart.
  rewrite Forall_forall in H. auto.
Qed.

Lemma place_step_reject coords g c :
  In c coords -> ~ apart cfg c (fst (candidate cfg g)) ->
  place_step cfg coords g = (coords, snd (candidate cfg g)).
Proof.
  intros Hin Hc. unfold place_step. destruct (candidate cfg g) as [[x y] g']. simpl in *.
  replace (forallb (separated cfg x y) coords) with false; [reflexivity|].
  symmetry. apply not_true_is_false. intros Hall.
  rewrite forallb_forall in Hall. apply Hc, separated_apart. auto.
Qed.

End Planner.

(** ** Properties of the monadic code *)

Section Assembly.

Variable cfg : Settings.
Variable host : Host.

Lemma yields_ret {A} (a : A) w g : g = rng w -> yields (ret a) w a g [].
Proof. intros ->. unfold yields, ret. rewrite app_nil_r. now destruct w. Qed.

Lemma yields_log e w g : g = rng w -> yields (log_message e) w tt g [e].
Proof. intros ->. reflexivity. Qed.

Lemma yields_bind {A B} (c : M A) (k : A -> M B) w a g l b g' l' :
  yields c w a g l ->
  yields (k a) {| rng := g; log := log w ++ l |} b g' l' ->
  yields (bind c k) w b g' (l ++ l').
Proof.
  unfold yields, bind. intros -> ->. simpl. now rewrite app_assoc.
Qed.

Lemma logged_keys_app l1 l2 :
  logged_keys (l1 ++ l2) = logged_keys l1 ++ logged_keys l2.
Proof.
  induction l1 as [|e l1 IH]; simpl; auto.
  destruct e; simpl; rewrite ?IH; auto.
Qed.

Lemma evaluations_app l1 l2 :
  evaluations (l1 ++ l2) = (evaluations l1 + evaluations l2)%nat.
Proof.
  induction l1 as [|e l1 IH]; simpl; auto.
  destruct e; simpl; rewrite ?IH; auto.
Qed.

(** *** Factories *)

Lemma factory_ok shape radius height :
  radius <> 0 ->
  exists m, SHAPE_FACTORIES host shape radius height = Ok m.
Proof.
  intros Hr. destruct shape; simpl; unfold cylinder, triangular_prism,
    square_prism, hexagon; try (eexists; reflexivity).
  destruct (Req_dec_T (radius * 2) 0) as [E|E].
  - exfalso. lra.
  - eexists; reflexivity.
Qed.

Lemma peg_key_ok shape x y :
  peg_radius cfg <> 0 ->
  exists m, SHAPE_FACTORIES host shape (peg_radius cfg) (peg_height cfg) = Ok m /\
            peg_key cfg host shape x y =
            Ok {| key_data := m;
                  key_location := (x, y, - (peg_height cfg / 2 - OVERLAP cfg)) |}.
Proof.
  intros Hr. destruct (factory_ok shape _ (peg_height cfg) Hr) as [m Hm].
  exists m. split; auto. unfold peg_key. now rewrite Hm.
Qed.

Lemma socket_key_ok shape x y :
  socket_radius cfg <> 0 ->
  exists m, SHAPE_FACTORIES host shape (socket_radius cfg) (socket_height cfg) = Ok m /\
            socket_key cfg host shape x y =
            Ok {| key_data := m;
                  key_location := (x, y, socket_height cfg / 2 - OVERLAP cfg) |}.
Proof.
  intros Hr. destruct (factory_ok shape _ (socket_height cfg) Hr) as [m Hm].
  exists m. split; auto. unfold socket_key. now rewrite Hm.
Qed.

(** *** The boolean helper *)

Lemma boolean_eq target tool op w :
  boolean host target tool op w =
  (Ok (match modifier_apply host (with_modifier target (bool_modifier tool op))
                            (bool_modifier tool op) with
       | Some m => {| data := m; modifiers := modifiers target |}
       | None => with_modifier target (bool_modifier tool op)
       end),
   {| rng := rng w;
      log := log w ++ [LogApplying op;
                       match modifier_apply host
                               (with_modifier target (bool_modifier tool op))
                               (bool_modifier tool op) with
                       | Some _ => LogBooleanOk
                       | None => LogBooleanError
                       end] |}).
Proof.
  unfold boolean, bind, log_message, ret, bool_modifier, with_modifier. simpl.
  destruct (modifier_apply host _ _); simpl;
    rewrite <- app_assoc; reflexivity.
Qed.

Lemma boolean_yields target tool op w :
  exists target' e,
    yields (boolean host target tool op) w target' (rng w) [LogApplying op; e] /\
    (e = LogBooleanOk \/ e = LogBooleanError).
Proof.
  eexists; eexists. split.
  - unfold yields. apply boolean_eq.
  - destruct (modifier_apply host _ _); auto.
Qed.

(** The key of the branch [add_key] takes, and its boolean operation. *)
Lemma add_key_eq hemisphere i shape x y (is_top : bool) (key : Key) w :
  (if is_top then peg_key cfg host shape x y
   else socket_key cfg host shape x y) = Ok key ->
  add_key cfg host hemisphere i (shape, (x, y)) is_top w =
  boolean host hemisphere key (if is_top then UNION else DIFFERENCE)
          {| rng := rng w; log := log w ++ [LogKey i shape x y] |}.
Proof.
  intros Hkey. unfold add_key, bind at 1, log_message at 1.
  destruct is_top; unfold bind, lift; rewrite Hkey; reflexivity.
Qed.

Lemma add_key_yields hemisphere i spec is_top w :
  radii_nonzero cfg ->
  exists hemisphere' e,
    yields (add_key cfg host hemisphere i spec is_top) w hemisphere' (rng w)
           [LogKey i (fst spec) (fst (snd spec)) (snd (snd spec)); LogApplying (if is_top then UNION else DIFFERENCE); e] /\
    (e = LogBooleanOk \/ e = LogBooleanError).
Proof.
  intros [Hpeg Hsocket]. destruct spec as [shape [x y]]. cbn [fst snd].
  assert (exists key, (if is_top then peg_key cfg host shape x y
                       else socket_key cfg host shape x y) = Ok key) as [key Hkey].
  { destruct is_top.
    - destruct (peg_key_ok shape x y Hpeg) as (m & _ & ->). eauto.
    - destruct (socket_key_ok shape x y Hsocket) as (m & _ & ->). eauto. }
  destruct (boolean_yields hemisphere key (if is_top then UNION else DIFFERENCE)
              {| rng := rng w; log := log w ++ [LogKey i shape x y] |})
    as (h' & e & Hy & He).
  exists h', e. split; auto.
  unfold yields in *. rewrite (add_key_eq _ _ _ _ _ _ _ _ Hkey), Hy.
  cbn [rng log]. now rewrite <- app_assoc.
Qed.

Lemma add_keys_loop_yields key_specs is_top :
  radii_nonzero cfg ->
  forall hemisphere i w,
  exists hemisphere' l,
    yields (add_keys_loop cfg host hemisphere i key_specs is_top) w
           hemisphere' (rng w) l /\
    logged_keys l = key_specs /\ evaluations l = length key_specs /\
    forallb inside_half l = true.
Proof.
  intros Hnz. induction key_specs as [|spec rest IH]; intros hemisphere i w.
  - exists hemisphere, []. split; [now apply yields_ret|auto].
  - destruct (add_key_yields hemisphere i spec is_top w Hnz) as (h1 & e & H1 & He).
    destruct (IH h1 (S i) {| rng := rng w; log := log w ++ [LogKey i (fst spec) (fst (snd spec)) (snd (snd spec)); LogApplying (if is_top then UNION else DIFFERENCE); e] |})
      as (h2 & l & H2 & Hk & Hev & Hin).
    eexists h2, _. split; [|split; [|split]].
    + simpl. eapply yields_bind; [exact H1|exact H2].
    + rewrite logged_keys_app, Hk. destruct spec as [shape [x y]]. simpl.
      destruct He; subst e; reflexivity.
    + rewrite evaluations_app, Hev. simpl. destruct He; subst e; reflexivity.
    + rewrite forallb_app, Hin. destruct He; subst e; reflexivity.
Qed.

Lemma mesh_cleanup_yields hemisphere w :
  exists hemisphere' l,
    yields (mesh_cleanup host hemisphere) w hemisphere' (rng w) l /\
    logged_keys l = [] /\ evaluations l = 0%nat /\
    forallb inside_half l = true.
Proof.
  assert (Hlog : forall e (h : Hemisphere),
             yields (log_message LogCleanup ;;; (log_message e ;;; ret h)) w h
                    (rng w) ([LogCleanup] ++ [e] ++ [])).
  { intros e h.
    eapply yields_bind; [now apply yields_log|].
    eapply yields_bind; [now apply yields_log|]. now apply yields_ret. }
  unfold mesh_cleanup.
  destruct (remove_doubles host (data hemisphere)) as [m1|];
    [destruct (normals_make_consistent host m1) as [m2|]|];
    eexists; eexists; (split; [apply Hlog|repeat split]).
Qed.

Lemma add_keys_yields hemisphere key_specs is_top w :
  radii_nonzero cfg ->
  exists hemisphere' l,
    yields (add_keys cfg host hemisphere key_specs is_top) w hemisphere' (rng w) l /\
    logged_keys l = key_specs /\ evaluations l = length key_specs /\
    forallb inside_half l = true.
Proof.
  intros Hnz.
  destruct (add_keys_loop_yields key_specs is_top Hnz hemisphere 1%nat w)
    as (h1 & l1 & H1 & Hk1 & He1 & Hin1).
  destruct (mesh_cleanup_yields h1 {| rng := rng w; log := log w ++ l1 |})
    as (h2 & l2 & H2 & Hk2 & He2 & Hin2).
  exists h2, (l1 ++ l2). split; [|split; [|split]].
  - unfold add_keys. eapply yields_bind; [exact H1|exact H2].
  - now rewrite logged_keys_app, Hk1, Hk2, app_nil_r.
  - rewrite evaluations_app, He1, He2. lia.
  - now rewrite forallb_app, Hin1, Hin2.
Qed.

(** *** Hemispheres, export and the bead loop *)

Lemma make_solid_hemisphere_yields is_top w :
  exists hemisphere l,
    yields (make_solid_hemisphere cfg host is_top) w hemisphere (rng w) l /\
    logged_keys l = [] /\ evaluations l = 0%nat /\
    forallb inside_half l = true /\ modifiers hemisphere = [].
Proof.
  unfold make_solid_hemisphere.
  destruct (ADD_SURFACE_NOISE cfg).
  - eexists; eexists. split.
    + eapply yields_bind.
      * eapply yields_bind; [now apply yields_log|].
        eapply yields_bind; [now apply yields_log|]. now apply yields_ret.
      * now apply yields_ret.
    + repeat split; reflexivity.
  - eexists; eexists. split.
    + eapply yields_bind; now apply yields_ret.
    + repeat split; reflexivity.
Qed.

Lemma export_stl_yields obj is_top idx w :
  exists l, yields (export_stl host obj is_top idx) w tt (rng w) l /\
            logged_keys l = [] /\ evaluations l = 0%nat.
Proof.
  unfold export_stl. destruct (export_mesh_stl host obj).
  - eexists. split.
    + eapply yields_bind; now apply yields_log.
    + split; reflexivity.
  - eexists. split.
    + eapply yields_bind; now apply yields_log.
    + split; reflexivity.
Qed.

Lemma log_layout_yields specs w :
  exists l, yields (log_layout specs) w tt (rng w) l /\
            logged_keys l = [] /\ evaluations l = 0%nat.
Proof.
  revert w. induction specs as [|[s [x y]] rest IH]; intros w.
  - exists []. split; [now apply yields_ret|auto].
  - destruct (IH {| rng := rng w; log := log w ++ [LogLayoutKey s x y] |})
      as (l & Hl & Hk & He).
    exists ([LogLayoutKey s x y] ++ l). split; [|split].
    + simpl log_layout. eapply yields_bind; [now apply yields_log|exact Hl].
    + rewrite logged_keys_app, Hk. reflexivity.
    + rewrite evaluations_app, He. reflexivity.
Qed.

Lemma with_random_yields {A} (f : Random -> A * Random) w :
  yields (with_random f) w (fst (f (rng w))) (snd (f (rng w))) [].
Proof.
  unfold yields, with_random. destruct (f (rng w)) as [a g]. simpl.
  now rewrite app_nil_r.
Qed.

(** One bead: the placements are drawn once, both halves announce the
    same key specs, and nothing raises. *)
Lemma bead_step_yields idx w :
  radii_nonzero cfg ->
  exists coords g' pair top_log bottom_log tail_log,
    random_key_positions cfg (KEYS_PER_BEAD cfg) (rng w) = (coords, g') /\
    yields (bead_step cfg host idx) w pair g'
           ([LogTopHalf idx] ++ top_log ++ [LogBottomHalf idx] ++ bottom_log
              ++ [LogExporting idx] ++ tail_log) /\
    bead_specs pair = combine (KEY_SHAPES cfg) coords /\
    logged_keys top_log = combine (KEY_SHAPES cfg) coords /\
    logged_keys bottom_log = combine (KEY_SHAPES cfg) coords /\
    evaluations top_log = length (combine (KEY_SHAPES cfg) coords) /\
    evaluations bottom_log = length (combine (KEY_SHAPES cfg) coords) /\
    logged_keys tail_log = [] /\
    forallb inside_half top_log = true /\
    forallb inside_half bottom_log = true.
Proof.
  intros Hnz.
  pose proof (with_random_yields (random_key_positions cfg (KEYS_PER_BEAD cfg)) w) as H0.
  destruct (random_key_positions cfg (KEYS_PER_BEAD cfg) (rng w)) as [coords g'] eqn:Hrun.
  cbn [fst snd] in H0.
  set (specs := combine (KEY_SHAPES cfg) coords).
  set (W1 := {| rng := g'; log := log w ++ [] |}) in *.
  set (W2 := {| rng := rng W1; log := log W1 ++ [LogTopHalf idx] |}).
  destruct (make_solid_hemisphere_yields true W2)
    as (top0 & lh1 & Hh1 & Hkh1 & Heh1 & Hih1 & _).
  set (W3 := {| rng := rng W2; log := log W2 ++ lh1 |}) in *.
  destruct (add_keys_yields top0 specs true W3 Hnz)
    as (top1 & lk1 & Hk1 & Hkk1 & Hek1 & Hik1).
  set (W4 := {| rng := rng W3; log := log W3 ++ lk1 |}) in *.
  set (W5 := {| rng := rng W4; log := log W4 ++ [LogBottomHalf idx] |}).
  destruct (make_solid_hemisphere_yields false W5)
    as (bottom0 & lh2 & Hh2 & Hkh2 & Heh2 & Hih2 & _).
  set (W6 := {| rng := rng W5; log := log W5 ++ lh2 |}) in *.
  destruct (add_keys_yields bottom0 specs false W6 Hnz)
    as (bottom1 & lk2 & Hk2 & Hkk2 & Hek2 & Hik2).
  set (W7 := {| rng := rng W6; log := log W6 ++ lk2 |}) in *.
  set (W8 := {| rng := rng W7; log := log W7 ++ [LogExporting idx] |}).
  destruct (export_stl_yields top1 true idx W8) as (le1 & Hx1 & Hkx1 & _).
  set (W9 := {| rng := rng W8; log := log W8 ++ le1 |}) in *.
  destruct (export_stl_yields bottom1 false idx W9) as (le2 & Hx2 & Hkx2 & _).
  set (W10 := {| rng := rng W9; log := log W9 ++ le2 |}) in *.
  set (W11 := {| rng := rng W10; log := log W10 ++ [LogLayout idx] |}).
  destruct (log_layout_yields specs W11) as (ll & Hl & Hkl & _).
  set (W12 := {| rng := rng W11; log := log W11 ++ ll |}) in *.
  exists coords, g', {| top := top1; bottom := bottom1; bead_specs := specs |},
    (lh1 ++ lk1), (lh2 ++ lk2),
    (le1 ++ le2 ++ [LogLayout idx] ++ ll ++ [LogRule]).
  split; [reflexivity|]. split; [|repeat split].
  - assert (Hchain :
      yields (bead_step cfg host idx) w
        {| top := top1; bottom := bottom1; bead_specs := specs |} g'
        ([] ++ [LogTopHalf idx] ++ lh1 ++ lk1 ++ [LogBottomHalf idx] ++ lh2
           ++ lk2 ++ [LogExporting idx] ++ le1 ++ le2 ++ [LogLayout idx]
           ++ ll ++ [LogRule] ++ [])).
    { unfold bead_step.
      eapply yields_bind; [exact H0|]. fold W1. fold specs.
      eapply yields_bind; [apply (yields_log _ W1 (rng W1) eq_refl)|]. fold W2.
      eapply yields_bind; [exact Hh1|]. fold W3.
      eapply yields_bind; [exact Hk1|]. fold W4.
      eapply yields_bind; [apply (yields_log _ W4 (rng W4) eq_refl)|]. fold W5.
      eapply yields_bind; [exact Hh2|]. fold W6.
      eapply yields_bind; [exact Hk2|]. fold W7.
      eapply yields_bind; [apply (yields_log _ W7 (rng W7) eq_refl)|]. fold W8.
      eapply yields_bind; [exact Hx1|]. fold W9.
      eapply yields_bind; [exact Hx2|]. fold W10.
      eapply yields_bind; [apply (yields_log _ W10 (rng W10) eq_refl)|]. fold W11.
      eapply yields_bind; [exact Hl|]. fold W12.
      eapply yields_bind; [apply (yields_log _ W12 (rng W12) eq_refl)|].
      apply yields_ret. reflexivity. }
    unfold yields in *. rewrite Hchain. f_equal. f_equal.
    rewrite app_nil_r. simpl. rewrite <- !app_assoc. reflexivity.
  - rewrite logged_keys_app, Hkh1, Hkk1. reflexivity.
  - rewrite logged_keys_app, Hkh2, Hkk2. reflexivity.
  - rewrite evaluations_app, Heh1, Hek1. reflexivity.
  - rewrite evaluations_app, Heh2, Hek2. reflexivity.
  - rewrite !logged_keys_app, Hkx1, Hkx2, Hkl. reflexivity.
  - now rewrite forallb_app, Hih1, Hik1.
  - now rewrite forallb_app, Hih2, Hik2.
Qed.

End Assembly.

(** ** Geometry of the primitives *)

Section Primitives.

Variable host : Host.

Lemma hypot_on_circle r phi :
  0 <= r -> hypot (r * sin phi) (r * cos phi) = r.
Proof.
  intros Hr. unfold hypot.
  replace (r * sin phi * (r * sin phi) + r * cos phi * (r * cos phi))
    with (r * r * ((sin phi)² + (cos phi)²)) by (unfold Rsqr; ring).
  rewrite sin2_cos2, Rmult_1_r. now apply sqrt_square.
Qed.

Lemma hypot_on_diagonal x y o :
  0 <= o -> x * x = o * o -> y * y = o * o -> hypot x y = o * sqrt 2.
Proof.
  intros Ho Hx Hy. unfold hypot. rewrite Hx, Hy.
  replace (o * o + o * o) with (o * o * 2) by ring.
  rewrite sqrt_mult_alt by nra. now rewrite sqrt_square.
Qed.

Lemma sqrt2_gt_1 : 1 < sqrt 2.
Proof.
  rewrite <- sqrt_1 at 1. apply sqrt_lt_1; lra.
Qed.

Lemma in_cone_verts radius1 radius2 depth vertices v :
  In v (verts (primitive_cone_add host radius1 radius2 depth vertices)) ->
  exists k, (k < vertices)%nat /\
            (v = ring_vertex radius1 vertices k (- (depth / 2)) \/
             v = ring_vertex radius2 vertices k (depth / 2)).
Proof.
  unfold primitive_cone_add. simpl. rewrite in_flat_map.
  intros (k & Hk & Hv). apply in_seq in Hk.
  exists k. split; [lia|]. simpl in Hv. intuition.
Qed.

Lemma cone_verts_in radius1 radius2 depth vertices k :
  (k < vertices)%nat ->
  In (ring_vertex radius1 vertices k (- (depth / 2)))
     (verts (primitive_cone_add host radius1 radius2 depth vertices)) /\
  In (ring_vertex radius2 vertices k (depth / 2))
     (verts (primitive_cone_add host radius1 radius2 depth vertices)).
Proof.
  intros Hk. unfold primitive_cone_add. simpl. rewrite !in_flat_map.
  split; exists k; (split; [apply in_seq; lia|simpl; auto]).
Qed.

Lemma ring_vertex_planar radius vertices k z :
  0 <= radius -> planar_distance (ring_vertex radius vertices k z) = radius.
Proof.
  intros Hr. unfold planar_distance, ring_vertex, vx, vy. simpl.
  now apply hypot_on_circle.
Qed.

Lemma ring_vertex_z radius vertices k z :
  vz (ring_vertex radius vertices k z) = z.
Proof. reflexivity. Qed.

(** Vertices of a prism with [vertices] sides: on the circle of the given
    radius, at the two ends of the depth. *)
Lemma prism_vertex radius depth vertices v :
  0 <= radius ->
  In v (verts (primitive_cone_add host radius radius depth vertices)) ->
  planar_distance v = radius /\ (vz v = - (depth / 2) \/ vz v = depth / 2).
Proof.
  intros Hr Hv. apply in_cone_verts in Hv.
  destruct Hv as (k & _ & [-> | ->]); split;
    try (now apply ring_vertex_planar); rewrite ring_vertex_z; auto.
Qed.

Lemma prism_ends radius depth vertices :
  (0 < vertices)%nat ->
  (exists v, In v (verts (primitive_cone_add host radius radius depth vertices)) /\
             vz v = - (depth / 2)) /\
  (exists v, In v (verts (primitive_cone_add host radius radius depth vertices)) /\
             vz v = depth / 2).
Proof.
  intros Hn.
  destruct (cone_verts_in radius radius depth vertices 0 Hn) as [Hlo Hhi].
  split; [exists (ring_vertex radius vertices 0 (- (depth / 2)))
         |exists (ring_vertex radius vertices 0 (depth / 2))];
    (split; [assumption|apply ring_vertex_z]).
Qed.

(** Vertices of the square prism: the corners of a square of side twice
    the radius, at the two ends of the height. *)
Lemma square_prism_ok radius height :
  radius <> 0 ->
  square_prism host radius height =
  Ok (apply_scale_z (height / (radius * 2)) (primitive_cube_add host (radius * 2))).
Proof.
  intros Hr. unfold square_prism.
  destruct (Req_dec_T (radius * 2) 0); [exfalso; lra|reflexivity].
Qed.

Lemma square_prism_vertex radius height v :
  0 < radius ->
  In v (verts (apply_scale_z (height / (radius * 2))
                 (primitive_cube_add host (radius * 2)))) ->
  planar_distance v = radius * sqrt 2 /\
  (vz v = - (height / 2) \/ vz v = height / 2) /\
  (vx v = - radius \/ vx v = radius) /\ (vy v = - radius \/ vy v = radius).
Proof.
  intros Hr Hv. simpl in Hv.
  assert (Hplanar : forall x y z : R,
             x * x = radius * radius -> y * y = radius * radius ->
             planar_distance (x, y, z) = radius * sqrt 2).
  { intros x y z Hx Hy. unfold planar_distance, vx, vy. simpl.
    apply hypot_on_diagonal; lra. }
  assert (Hlo : - (radius * 2 / 2) * (height / (radius * 2)) = - (height / 2))
    by (field; lra).
  assert (Hhi : radius * 2 / 2 * (height / (radius * 2)) = height / 2)
    by (field; lra).
  unfold vx, vy, vz in Hv. simpl in Hv.
  repeat (destruct Hv as [<- | Hv];
          [split; [apply Hplanar; field|];
           split; [unfold vz; simpl; rewrite ?Hlo, ?Hhi; auto|];
           unfold vx, vy; simpl;
           split; first [left; lra|right; lra]|]).
  contradiction.
Qed.

Lemma square_prism_ends radius height :
  radius <> 0 ->
  (exists v, In v (verts (apply_scale_z (height / (radius * 2))
                            (primitive_cube_add host (radius * 2)))) /\
             vz v = - (height / 2)) /\
  (exists v, In v (verts (apply_scale_z (height / (radius * 2))
                            (primitive_cube_add host (radius * 2)))) /\
             vz v = height / 2).
Proof.
  intros Hr. split.
  - eexists. split; [simpl; left; reflexivity|].
    unfold vz, vx, vy; simpl. field; lra.
  - eexists. split; [simpl; right; left; reflexivity|].
    unfold vz, vx, vy; simpl. field; lra.
Qed.

(** Every factory builds a solid whose vertices lie at the two ends of the
    height, both ends being reached. *)
Lemma factory_z_extent shape radius height :
  0 < radius ->
  exists m,
    SHAPE_FACTORIES host shape radius height = Ok m /\
    (forall v, In v (verts m) -> vz v = - (height / 2) \/ vz v = height / 2) /\
    (exists v, In v (verts m) /\ vz v = - (height / 2)) /\
    (exists v, In v (verts m) /\ vz v = height / 2).
Proof.
  intros Hr.
  assert (Hprism : forall n, (0 < n)%nat ->
    (forall v, In v (verts (primitive_cone_add host radius radius height n)) ->
               vz v = - (height / 2) \/ vz v = height / 2) /\
    (exists v, In v (verts (primitive_cone_add host radius radius height n)) /\
               vz v = - (height / 2)) /\
    (exists v, In v (verts (primitive_cone_add host radius radius height n)) /\
               vz v = height / 2)).
  { intros n Hn. split.
    - intros v Hv. apply (prism_vertex radius height n v); [lra|exact Hv].
    - now apply prism_ends. }
  destruct shape; simpl.
  - eexists; split; [reflexivity|]. apply Hprism. lia.
  - eexists; split; [reflexivity|]. apply Hprism. lia.
  - eexists; split; [apply square_prism_ok; lra|]. split.
    + intros v Hv. now apply (square_prism_vertex radius height v Hr).
    + apply square_prism_ends. lra.
  - eexists; split; [reflexivity|]. apply Hprism. lia.
Qed.

End Primitives.

(** ** The displacement loop *)

Section Displacement.

Variable cfg : Settings.
Variable host : Host.

Lemma set_nth_length {A} i (a : A) l : length (set_nth i a l) = length l.
Proof.
  revert i. induction l as [|h t IH]; intros [|i]; simpl; auto.
Qed.

Lemma nth_error_set_nth_eq {A} i (a : A) l :
  (i < length l)%nat -> nth_error (set_nth i a l) i = Some a.
Proof.
  revert i. induction l as [|h t IH]; intros [|i] Hi; simpl in *; try lia; auto.
  apply IH. lia.
Qed.

Lemma nth_error_set_nth_neq {A} i j (a : A) l :
  i <> j -> nth_error (set_nth i a l) j = nth_error l j.
Proof.
  revert i j. induction l as [|h t IH]; intros [|i] [|j] Hij; simpl; auto;
    congruence.
Qed.

(** What the loop leaves in every cell, whatever the order of the visits,
    as long as no vertex is visited twice. *)
Lemma displace_loop_cell order :
  NoDup order ->
  forall store j,
    nth_error (displace_loop cfg host order store) j =
    if in_dec Nat.eq_dec j order
    then option_map (displace cfg host) (nth_error store j)
    else nth_error store j.
Proof.
  induction 1 as [|i rest Hi Hnd IH]; intros store j.
  - reflexivity.
  - simpl displace_loop. rewrite IH.
    destruct (Nat.eq_dec i j) as [->|Hij].
    + destruct (in_dec Nat.eq_dec j rest) as [Hin|_]; [contradiction|].
      destruct (in_dec Nat.eq_dec j (j :: rest)) as [_|Hout];
        [|exfalso; apply Hout; now left].
      destruct (nth_error store j) as [co|] eqn:Hco; simpl.
      * apply nth_error_set_nth_eq. apply nth_error_Some. congruence.
      * exact Hco.
    + assert (Hcell : nth_error
                (match nth_error store i with
                 | Some co => set_nth i (displace cfg host co) store
                 | None => store
                 end) j = nth_error store j).
      { destruct (nth_error store i); auto.
        now apply nth_error_set_nth_neq. }
      rewrite Hcell.
      destruct (in_dec Nat.eq_dec j rest) as [Hin|Hnin];
        destruct (in_dec Nat.eq_dec j (i :: rest)) as [Hin'|Hnin']; auto.
      * exfalso. apply Hnin'. now right.
      * destruct Hin' as [E|Hin']; [congruence|contradiction].
Qed.

Lemma displace_loop_any_order order store :
  Permutation order (seq 0 (length store)) ->
  displace_loop cfg host order store = map (displace cfg host) store.
Proof.
  intros Hperm. apply nth_error_ext. intros j.
  rewrite displace_loop_cell.
  - rewrite nth_error_map.
    destruct (in_dec Nat.eq_dec j order) as [_|Hout]; auto.
    destruct (nth_error store j) eqn:Hj; auto.
    exfalso. apply Hout.
    apply (Permutation_in _ (Permutation_sym Hperm)).
    apply in_seq. split; [lia|]. simpl. apply nth_error_Some. congruence.
  - apply (Permutation_NoDup (Permutation_sym Hperm)), seq_NoDup.
Qed.

Lemma make_noisy_sphere_verts :
  verts (make_noisy_sphere cfg host) =
  map (displace cfg host)
      (verts (primitive_uv_sphere_add host (segments cfg) (ring_count cfg) (OUTER_R cfg))).
Proof.
  unfold make_noisy_sphere. simpl.
  apply displace_loop_any_order. apply Permutation_refl.
Qed.

End Displacement.

(** ** Two concrete runs of the planner *)

Lemma USER_usable_radius : usable_radius USER_SETTINGS = 21.
Proof.
  unfold usable_radius, INNER_R, OUTER_R. simpl. lra.
Qed.

Lemma hypot_0_r x : 0 <= x -> hypot x 0 = x.
Proof.
  intros Hx. unfold hypot. rewrite Rmult_0_r, Rplus_0_r. now apply sqrt_square.
Qed.

Lemma distance_sym p q : distance p q = distance q p.
Proof.
  unfold distance, hypot. f_equal. ring.
Qed.

Lemma distance_self p : distance p p = 0.
Proof.
  unfold distance, hypot.
  replace (fst p - fst p) with 0 by ring.
  replace (snd p - snd p) with 0 by ring.
  rewrite Rmult_0_r, Rplus_0_r. apply sqrt_0.
Qed.

(** A generator that only returns 0 proposes the same point again and
    again: the first candidate is accepted and every later one rejected. *)
Lemma constant_candidate cfg g :
  draws g = (fun _ => 0) ->
  fst (candidate cfg g) = fst (candidate cfg (constant_random 0)) /\
  draws (snd (candidate cfg g)) = (fun _ => 0).
Proof.
  intros Hg. rewrite !candidate_eq. simpl. rewrite Hg. auto.
Qed.

Lemma stuck_run cfg n :
  0 <= MAX_KEY_RADIUS cfg -> (1 <= n)%nat ->
  fst (fst (place_run cfg n (constant_random 0))) =
  [fst (candidate cfg (constant_random 0))].
Proof.
  intros Hr Hn.
  set (p0 := fst (candidate cfg (constant_random 0))).
  assert (H : draws (snd (place_run cfg n (constant_random 0))) = (fun _ => 0) /\
              ((fst (fst (place_run cfg n (constant_random 0))) = [] /\
                snd (fst (place_run cfg n (constant_random 0))) = 0%nat) \/
               fst (fst (place_run cfg n (constant_random 0))) = [p0])).
  { refine (place_run_rule cfg n (constant_random 0)
              (fun coords attempts g =>
                 draws g = (fun _ => 0) /\
                 ((coords = [] /\ attempts = 0%nat) \/ coords = [p0])) _ _).
    - split; [reflexivity|left; split; reflexivity].
    - intros coords attempts g0 _ _ [Hg Hc].
      destruct (constant_candidate cfg g0 Hg) as [Hp Hg'].
      split; [now rewrite place_step_rng|]. right.
      destruct Hc as [[-> _]| ->].
      + rewrite place_step_accept by constructor. cbn [fst app]. now rewrite Hp.
      + rewrite (place_step_reject cfg [p0] g0 p0); [reflexivity|now left|].
        rewrite Hp. fold p0. unfold apart. rewrite distance_self. lra. }
  destruct H as [_ [[Hnil Hzero]| H]]; [|exact H].
  exfalso.
  destruct (place_run_exit cfg n (constant_random 0)) as [Hlen|Hatt].
  - rewrite Hnil in Hlen. simpl in Hlen. lia.
  - rewrite Hzero in Hatt. discriminate.
Qed.

(** The first two candidates of [two_point_random] under the settings of
    the script. *)
Lemma two_point_first :
  fst (candidate USER_SETTINGS two_point_random) = (21 / 4, 0).
Proof.
  rewrite candidate_eq, USER_usable_radius. simpl.
  replace (0 + (2 * PI - 0) * 0) with 0 by ring.
  rewrite cos_0, sin_0. f_equal; lra.
Qed.

Lemma two_point_second :
  fst (candidate USER_SETTINGS (snd (candidate USER_SETTINGS two_point_random))) =
  (- (63 / 4), 0).
Proof.
  rewrite !candidate_eq, USER_usable_radius. simpl.
  replace (0 + (2 * PI - 0) * (1 / 2)) with PI by field.
  rewrite cos_PI, sin_PI. f_equal; lra.
Qed.

Lemma two_point_run :
  fst (fst (place_run USER_SETTINGS 2 two_point_random)) =
  [(21 / 4, 0); (- (63 / 4), 0)].
Proof.
  rewrite place_run_first by lia.
  change 999%nat with (S (S 997)).
  rewrite place_loop_S.
  replace (length [fst (candidate USER_SETTINGS two_point_random)] <? 2)%nat
    with true by reflexivity.
  replace (1 <? 1000)%nat with true by reflexivity.
  cbv [andb].
  rewrite place_step_accept.
  - cbn [fst snd]. rewrite place_loop_S.
    replace (length ([fst (candidate USER_SETTINGS two_point_random)] ++
                     [fst (candidate USER_SETTINGS
                             (snd (candidate USER_SETTINGS two_point_random)))]) <? 2)%nat
      with false by reflexivity.
    cbv [andb]. cbn [fst snd app].
    now rewrite two_point_first, two_point_second.
  - rewrite two_point_first, two_point_second.
    constructor; [|constructor].
    unfold apart, distance. cbn [fst snd MAX_KEY_RADIUS USER_SETTINGS].
    replace (- (63 / 4) - 21 / 4) with (- 21) by lra.
    replace (0 - 0) with 0 by lra.
    unfold hypot. replace (- 21 * - 21 + 0 * 0) with (21 * 21) by lra.
    rewrite sqrt_square; lra.
Qed.

(** ** The claims about the key placement planner *)

Lemma ForallOrdPairs_nth {A} (P : A -> A -> Prop) l :
  ForallOrdPairs P l ->
  forall i j p q, (i < j)%nat ->
    nth_error l i = Some p -> nth_error l j = Some q -> P p q.
Proof.
  induction 1 as [|a l Ha Hl IH]; intros i j p q Hij Hp Hq.
  - destruct i; discriminate.
  - destruct j as [|j]; [lia|]. simpl in Hq. destruct i as [|i]; simpl in Hp.
    + injection Hp as <-. rewrite Forall_forall in Ha.
      apply Ha. eapply nth_error_In; eauto.
    + apply (IH i j); auto. lia.
Qed.

Lemma hypot_polar r ang : 0 <= r -> hypot (r * cos ang) (r * sin ang) = r.
Proof.
  intros Hr. rewrite <- (hypot_on_circle r ang Hr) at 3.
  unfold hypot. f_equal. ring.
Qed.

(** C2, as amended: the candidate is the point of polar coordinates
    (U * u1, 2 pi * u2) for the two draws u1, u2 of the generator.  Its
    angle lies in [0, 2 pi), its distance from the centre is U * u1, linear
    in the draw, so it falls within the disk of radius rho * U exactly when
    u1 <= rho: the law is uniform in the radius, not in the area. *)
Theorem candidate_uniform_in_radius (cfg : Settings) (g : Random) :
  0 < usable_radius cfg ->
  0 <= draws g (cursor g) < 1 ->
  0 <= draws g (S (cursor g)) < 1 ->
  fst (candidate cfg g) =
    (usable_radius cfg * draws g (cursor g) * cos (2 * PI * draws g (S (cursor g))),
     usable_radius cfg * draws g (cursor g) * sin (2 * PI * draws g (S (cursor g)))) /\
  0 <= 2 * PI * draws g (S (cursor g)) < 2 * PI /\
  hypot (fst (fst (candidate cfg g))) (snd (fst (candidate cfg g))) =
    usable_radius cfg * draws g (cursor g) /\
  hypot (fst (fst (candidate cfg g))) (snd (fst (candidate cfg g))) <
    usable_radius cfg /\
  (forall rho,
      hypot (fst (fst (candidate cfg g))) (snd (fst (candidate cfg g)))
        <= rho * usable_radius cfg
      <-> draws g (cursor g) <= rho).
Proof.
  intros HU [Hu1 Hu1'] [Hu2 Hu2'].
  assert (Hp : fst (candidate cfg g) =
    (usable_radius cfg * draws g (cursor g) * cos (2 * PI * draws g (S (cursor g))),
     usable_radius cfg * draws g (cursor g) * sin (2 * PI * draws g (S (cursor g))))).
  { rewrite candidate_eq. cbn [fst].
    replace (0 + (usable_radius cfg - 0) * draws g (cursor g))
      with (usable_radius cfg * draws g (cursor g)) by ring.
    replace (0 + (2 * PI - 0) * draws g (S (cursor g)))
      with (2 * PI * draws g (S (cursor g))) by ring.
    reflexivity. }
  assert (Hh : hypot (fst (fst (candidate cfg g))) (snd (fst (candidate cfg g))) =
               usable_radius cfg * draws g (cursor g)).
  { rewrite Hp. cbn [fst snd]. apply hypot_polar. nra. }
  pose proof PI_RGT_0 as Hpi.
  split; [exact Hp|]. split; [split; nra|]. split; [exact Hh|].
  split; [rewrite Hh; nra|].
  intros rho. rewrite Hh. split; intros H; nra.
Qed.

Lemma candidate_uniform_in_radius_witness :
  hypot (fst (fst (candidate USER_SETTINGS two_point_random)))
        (snd (fst (candidate USER_SETTINGS two_point_random)))
  = usable_radius USER_SETTINGS * (1 / 4).
Proof.
  apply (candidate_uniform_in_radius USER_SETTINGS two_point_random).
  - rewrite USER_usable_radius. lra.
  - simpl. lra.
  - simpl. lra.
Defined.

(** C2, as stated, fails: on the draw 1/4 the script places the candidate
    at distance U / 4 = 21/4 from the centre, where the radius
    U * sqrt(1/4) of the specification is 21/2. *)
Lemma candidate_not_area_uniform :
  fst (candidate USER_SETTINGS two_point_random) = (21 / 4, 0) /\
  spec_candidate USER_SETTINGS two_point_random = (21 / 2, 0) /\
  fst (candidate USER_SETTINGS two_point_random)
    <> spec_candidate USER_SETTINGS two_point_random.
Proof.
  assert (Hspec : spec_candidate USER_SETTINGS two_point_random = (21 / 2, 0)).
  { unfold spec_candidate. rewrite USER_usable_radius. simpl.
    replace (2 * PI * 0) with 0 by ring.
    rewrite cos_0, sin_0.
    rewrite (sqrt_lem_1 (1 / 4) (1 / 2)) by lra.
    f_equal; lra. }
  split; [apply two_point_first|]. split; [exact Hspec|].
  rewrite two_point_first, Hspec. intros H. injection H. lra.
Qed.

(** C3: any two distinct positions the planner returns are at least
    2 * MAX_KEY_RADIUS apart, each position being strictly farther than
    that from every position accepted before it. *)
Theorem accepted_positions_separated (cfg : Settings) (n : nat) (g : Random) :
  ForallOrdPairs (apart cfg) (fst (random_key_positions cfg n g)) /\
  (forall i j p q,
      i <> j ->
      nth_error (fst (random_key_positions cfg n g)) i = Some p ->
      nth_error (fst (random_key_positions cfg n g)) j = Some q ->
      2 * MAX_KEY_RADIUS cfg <= distance p q).
Proof.
  rewrite random_key_positions_fst.
  pose proof (place_run_apart cfg n g) as H.
  split; [exact H|].
  intros i j p q Hij Hp Hq.
  destruct (Nat.lt_total i j) as [Hlt|[Heq|Hgt]]; [|contradiction|].
  - pose proof (ForallOrdPairs_nth _ _ H i j p q Hlt Hp Hq) as Hd.
    unfold apart in Hd. lra.
  - pose proof (ForallOrdPairs_nth _ _ H j i q p Hgt Hq Hp) as Hd.
    unfold apart in Hd. rewrite distance_sym. lra.
Qed.

Lemma accepted_positions_separated_witness :
  2 * MAX_KEY_RADIUS USER_SETTINGS <= distance (- (63 / 4), 0) (21 / 4, 0).
Proof.
  apply (proj2 (accepted_positions_separated USER_SETTINGS 2 two_point_random)
               1%nat 0%nat).
  - discriminate.
  - rewrite random_key_positions_fst, two_point_run. reflexivity.
  - rewrite random_key_positions_fst, two_point_run. reflexivity.
Defined.

(** C10: asked for at least one position, the planner returns a sequence
    that starts with its first candidate, hence is not empty. *)
Theorem first_candidate_accepted (cfg : Settings) (n : nat) (g : Random) :
  (1 <= n)%nat ->
  exists rest,
    fst (random_key_positions cfg n g) = fst (candidate cfg g) :: rest /\
    fst (random_key_positions cfg n g) <> [].
Proof.
  intros Hn. rewrite random_key_positions_fst.
  rewrite place_run_first by exact Hn.
  destruct (place_loop_extends cfg 999 n [fst (candidate cfg g)] 1
              (snd (candidate cfg g))) as [rest ->].
  exists rest. split; [reflexivity|discriminate].
Qed.

Lemma first_candidate_accepted_witness :
  exists rest,
    fst (random_key_positions USER_SETTINGS 4 two_point_random) = (21 / 4, 0) :: rest.
Proof.
  destruct (first_candidate_accepted USER_SETTINGS 4 two_point_random) as [rest [H _]].
  - lia.
  - exists rest. rewrite H, two_point_first. reflexivity.
Defined.

(** ** The claims about the keys *)

(** C4: the socket tool is built with the radius of the peg tool plus the
    clearance and the height of the peg tool plus the clearance, the peg
    tool with [MAX_KEY_RADIUS] and [PEG_LENGTH], whatever the shape. *)
Theorem clearance_sizing (cfg : Settings) (host : Host) (shape : Shape) (x y : R) :
  socket_radius cfg = peg_radius cfg + CLEARANCE cfg /\
  socket_height cfg = peg_height cfg + CLEARANCE cfg /\
  map_result key_data (peg_key cfg host shape x y) =
    SHAPE_FACTORIES host shape (MAX_KEY_RADIUS cfg) (PEG_LENGTH cfg) /\
  map_result key_data (socket_key cfg host shape x y) =
    SHAPE_FACTORIES host shape (MAX_KEY_RADIUS cfg + CLEARANCE cfg)
                    (PEG_LENGTH cfg + CLEARANCE cfg).
Proof.
  split; [reflexivity|]. split; [reflexivity|]. split.
  - unfold peg_key, peg_radius, peg_height.
    now destruct (SHAPE_FACTORIES host shape (MAX_KEY_RADIUS cfg) (PEG_LENGTH cfg)).
  - unfold socket_key, socket_radius, socket_height.
    now destruct (SHAPE_FACTORIES host shape (MAX_KEY_RADIUS cfg + CLEARANCE cfg)
                    (PEG_LENGTH cfg + CLEARANCE cfg)).
Qed.

Lemma vz_vadd (a b : Vec3) : vz (a +v b) = vz a + vz b.
Proof. reflexivity. Qed.

(** A solid whose vertices lie at the two ends of its height, moved to a
    location, has its vertices at the location's height plus or minus half
    the height. *)
Lemma located_z_extent (m : Mesh) (height x y key_z : R) :
  (forall v, In v (verts m) -> vz v = - (height / 2) \/ vz v = height / 2) ->
  (exists v, In v (verts m) /\ vz v = - (height / 2)) ->
  (exists v, In v (verts m) /\ vz v = height / 2) ->
  let key := {| key_data := m; key_location := (x, y, key_z) |} in
  (forall v, In v (key_world_verts key) ->
             vz v = key_z - height / 2 \/ vz v = key_z + height / 2) /\
  (exists v, In v (key_world_verts key) /\ vz v = key_z - height / 2) /\
  (exists v, In v (key_world_verts key) /\ vz v = key_z + height / 2).
Proof.
  intros Hall (lo & Hlo & Hzlo) (hi & Hhi & Hzhi) key.
  unfold key_world_verts. cbn [key_data key_location key].
  assert (Hloc : vz (x, y, key_z) = key_z) by reflexivity.
  split; [|split].
  - intros v Hv. apply in_map_iff in Hv. destruct Hv as (u & <- & Hu).
    rewrite vz_vadd, Hloc.
    destruct (Hall u Hu) as [Hu' | Hu']; rewrite Hu'; [left|right]; lra.
  - exists ((x, y, key_z) +v lo). split.
    + apply (in_map (fun v => (x, y, key_z) +v v)). exact Hlo.
    + rewrite vz_vadd, Hloc, Hzlo. lra.
  - exists ((x, y, key_z) +v hi). split.
    + apply (in_map (fun v => (x, y, key_z) +v v)). exact Hhi.
    + rewrite vz_vadd, Hloc, Hzhi. lra.
Qed.

(** C5: the peg tool sits at (x, y, -(h/2 - OVERLAP)) and spans the heights
    from -(h - OVERLAP) to OVERLAP, both reached; the socket tool of height
    h' sits at (x, y, h'/2 - OVERLAP) and spans the heights from -OVERLAP
    to h' - OVERLAP, both reached. *)
Theorem key_z_extent (cfg : Settings) (host : Host) (shape : Shape) (x y : R) :
  0 < MAX_KEY_RADIUS cfg -> 0 <= CLEARANCE cfg -> 0 <= PEG_LENGTH cfg ->
  (exists peg,
      peg_key cfg host shape x y = Ok peg /\
      key_location peg = (x, y, - (PEG_LENGTH cfg / 2 - OVERLAP cfg)) /\
      (forall v, In v (key_world_verts peg) ->
                 - (PEG_LENGTH cfg - OVERLAP cfg) <= vz v <= OVERLAP cfg) /\
      (exists v, In v (key_world_verts peg) /\
                 vz v = - (PEG_LENGTH cfg - OVERLAP cfg)) /\
      (exists v, In v (key_world_verts peg) /\ vz v = OVERLAP cfg)) /\
  (exists socket,
      socket_key cfg host shape x y = Ok socket /\
      key_location socket =
        (x, y, (PEG_LENGTH cfg + CLEARANCE cfg) / 2 - OVERLAP cfg) /\
      (forall v, In v (key_world_verts socket) ->
                 - OVERLAP cfg <= vz v
                 <= (PEG_LENGTH cfg + CLEARANCE cfg) - OVERLAP cfg) /\
      (exists v, In v (key_world_verts socket) /\ vz v = - OVERLAP cfg) /\
      (exists v, In v (key_world_verts socket) /\
                 vz v = (PEG_LENGTH cfg + CLEARANCE cfg) - OVERLAP cfg)).
Proof.
  intros Hr Hc Hh. split.
  - destruct (factory_z_extent host shape (peg_radius cfg) (peg_height cfg) Hr)
      as (m & Hm & Hall & Hlo & Hhi).
    destruct (located_z_extent m (peg_height cfg) x y
                (- (peg_height cfg / 2 - OVERLAP cfg)) Hall Hlo Hhi)
      as (Hall' & (lo & Hlo' & Hzlo) & (hi & Hhi' & Hzhi)).
    eexists. split; [unfold peg_key; rewrite Hm; reflexivity|].
    unfold peg_height in *. split; [reflexivity|]. split; [|split].
    + intros v Hv. destruct (Hall' v Hv) as [-> | ->]; lra.
    + exists lo. split; [exact Hlo'|]. rewrite Hzlo. lra.
    + exists hi. split; [exact Hhi'|]. rewrite Hzhi. lra.
  - assert (Hr' : 0 < socket_radius cfg) by (unfold socket_radius; lra).
    destruct (factory_z_extent host shape (socket_radius cfg) (socket_height cfg) Hr')
      as (m & Hm & Hall & Hlo & Hhi).
    destruct (located_z_extent m (socket_height cfg) x y
                (socket_height cfg / 2 - OVERLAP cfg) Hall Hlo Hhi)
      as (Hall' & (lo & Hlo' & Hzlo) & (hi & Hhi' & Hzhi)).
    eexists. split; [unfold socket_key; rewrite Hm; reflexivity|].
    unfold socket_height in *. split; [reflexivity|]. split; [|split].
    + intros v Hv. destruct (Hall' v Hv) as [-> | ->]; lra.
    + exists lo. split; [exact Hlo'|]. rewrite Hzlo. lra.
    + exists hi. split; [exact Hhi'|]. rewrite Hzhi. lra.
Qed.

Lemma key_z_extent_witness :
  exists peg,
    peg_key USER_SETTINGS failing_host square_shape 1 2 = Ok peg /\
    key_location peg = (1, 2, - (20 / 2 - 11)) /\
    exists v, In v (key_world_verts peg) /\ vz v = 11.
Proof.
  destruct (key_z_extent USER_SETTINGS failing_host square_shape 1 2)
    as [(peg & Hpeg & Hloc & _ & _ & Hhi) _].
  - simpl. lra.
  - simpl. lra.
  - simpl. lra.
  - exists peg. split; [exact Hpeg|]. split; [exact Hloc|exact Hhi].
Defined.





(** ** The run as a whole *)

Section Run.

Variable cfg : Settings.
Variable host : Host.
Hypothesis Hradii : radii_nonzero cfg.

Lemma bead_loop_yields idxs :
  forall w, exists beads g l,
    yields (bead_loop cfg host idxs) w beads g l /\
    length beads = length idxs.
Proof.
  induction idxs as [|idx rest IH]; intros w.
  - exists [], (rng w), []. split; [now apply yields_ret|reflexivity].
  - destruct (bead_step_yields cfg host idx w Hradii)
      as (coords & g' & pair & top_log & bottom_log & tail_log & _ & Hstep & _).
    destruct (IH {| rng := g';
                    log := log w ++ [LogTopHalf idx] ++ top_log
                             ++ [LogBottomHalf idx] ++ bottom_log
                             ++ [LogExporting idx] ++ tail_log |})
      as (beads & g & l & Hloop & Hlen).
    eexists (pair :: beads), g, _. split.
    + simpl bead_loop.
      eapply yields_bind; [exact Hstep|].
      eapply yields_bind; [exact Hloop|].
      now apply yields_ret.
    + simpl. now rewrite Hlen.
Qed.

Lemma seed_random_yields w :
  yields (seed_random cfg host) w tt
         {| draws := seeded host (SEED cfg); cursor := 0 |} [].
Proof.
  unfold yields, seed_random. now rewrite app_nil_r.
Qed.

(** With a usable output directory the run builds every bead and ends
    with the closing message. *)
Lemma generate_beads_completes log_opened w :
  exists beads g l,
    generate_beads cfg host true log_opened w =
      (Some beads, {| rng := g; log := log w ++ l ++ [LogFinished] |}) /\
    length beads = BEAD_COUNT cfg.
Proof.
  unfold generate_beads. cbn [negb].
  set (w0 := if log_opened
             then {| rng := rng w; log := log w ++ [LogStarted; LogFileCreated] |}
             else w).
  set (w1 := {| rng := {| draws := seeded host (SEED cfg); cursor := 0 |};
                log := log w0 ++ [] |}).
  destruct (bead_loop_yields (seq 1 (BEAD_COUNT cfg)) w1)
    as (beads & g & l & Hloop & Hlen).
  assert (Hrun : yields (seed_random cfg host ;;;
                         beads <- bead_loop cfg host (seq 1 (BEAD_COUNT cfg)) ;;
                         log_message LogFinished ;;;
                         ret beads) w0 beads g ([] ++ l ++ [LogFinished] ++ [])).
  { eapply yields_bind; [apply seed_random_yields|]. fold w1.
    eapply yields_bind; [exact Hloop|].
    eapply yields_bind; [now apply yields_log|].
    now apply yields_ret. }
  unfold yields in Hrun. rewrite Hrun.
  rewrite length_seq in Hlen.
  destruct log_opened; subst w0; cbn [log].
  - exists beads, g, ([LogStarted; LogFileCreated] ++ l). split; [|exact Hlen].
    do 2 (try f_equal).
    all: cbn [log app]; rewrite ?app_nil_r, <- ?app_assoc; reflexivity.
  - exists beads, g, l. split; [|exact Hlen].
    do 2 (try f_equal).
    all: cbn [log app]; rewrite ?app_nil_r, <- ?app_assoc; reflexivity.
Qed.

End Run.

(** ** The claims about the assembly and the orchestration *)

Lemma vscale_vscale (a : Vec3) (k1 k2 : R) : a *v k1 *v k2 = a *v (k1 * k2).
Proof.
  unfold vscale, vx, vy, vz. simpl. f_equal; [f_equal|]; ring.
Qed.

(** C8: every vertex v of the sphere is moved to
    v + normalize(v) * noise(v * F) * A with F = noise_scale and
    A = noise_strength; the loop gives this result whatever the order in
    which it visits the vertices, the faces are kept, and building a
    hemisphere leaves the seeded generator where it was. *)
Theorem noise_displacement (cfg : Settings) (host : Host) :
  (forall v, displace cfg host v =
             v +v normalized v *v (noise host (v *v noise_scale cfg) * noise_strength cfg)) /\
  verts (make_noisy_sphere cfg host) =
    map (displace cfg host)
        (verts (primitive_uv_sphere_add host (segments cfg) (ring_count cfg)
                                        (OUTER_R cfg))) /\
  faces (make_noisy_sphere cfg host) =
    faces (primitive_uv_sphere_add host (segments cfg) (ring_count cfg) (OUTER_R cfg)) /\
  (forall order store,
      Permutation order (seq 0 (length store)) ->
      displace_loop cfg host order store = map (displace cfg host) store) /\
  (forall is_top w, rng (snd (make_solid_hemisphere cfg host is_top w)) = rng w).
Proof.
  split; [|split; [|split; [|split]]].
  - intros v. unfold displace. now rewrite vscale_vscale.
  - apply make_noisy_sphere_verts.
  - reflexivity.
  - intros order store. apply displace_loop_any_order.
  - intros is_top w.
    destruct (make_solid_hemisphere_yields cfg host is_top w) as (h & l & Hy & _).
    unfold yields in Hy. now rewrite Hy.
Qed.

Lemma noise_displacement_witness :
  displace_loop USER_SETTINGS failing_host [1%nat; 0%nat] [(0, 0, 30); (0, 0, -30)] =
  map (displace USER_SETTINGS failing_host) [(0, 0, 30); (0, 0, -30)].
Proof.
  apply (noise_displacement USER_SETTINGS failing_host).
  simpl. apply perm_swap.
Defined.

(** C6: when the boolean evaluation of a key fails, [add_key] returns
    without raising; the hemisphere it returns has the mesh it had before
    (the modifier that could not be applied stays on its stack); the log
    has gained the announcement of the key, the one evaluation and the
    error; the loop goes on with the next key, and the whole of [add_keys]
    returns without raising after one evaluation per key. *)
Theorem failed_boolean_is_skipped (cfg : Settings) (host : Host)
    (hemisphere : Hemisphere) (i : nat) (shape : Shape) (x y : R)
    (is_top : bool) (rest : list KeySpec) (w : World) (key : Key) :
  (if is_top then peg_key cfg host shape x y
   else socket_key cfg host shape x y) = Ok key ->
  modifier_apply host
    (with_modifier hemisphere
       (bool_modifier key (if is_top then UNION else DIFFERENCE)))
    (bool_modifier key (if is_top then UNION else DIFFERENCE)) = None ->
  add_key cfg host hemisphere i (shape, (x, y)) is_top w =
    (Ok (with_modifier hemisphere
           (bool_modifier key (if is_top then UNION else DIFFERENCE))),
     {| rng := rng w;
        log := log w ++ [LogKey i shape x y;
                         LogApplying (if is_top then UNION else DIFFERENCE);
                         LogBooleanError] |}) /\
  data (with_modifier hemisphere
          (bool_modifier key (if is_top then UNION else DIFFERENCE))) =
    data hemisphere /\
  add_keys_loop cfg host hemisphere i ((shape, (x, y)) :: rest) is_top w =
    add_keys_loop cfg host
      (with_modifier hemisphere
         (bool_modifier key (if is_top then UNION else DIFFERENCE)))
      (S i) rest is_top
      {| rng := rng w;
         log := log w ++ [LogKey i shape x y;
                          LogApplying (if is_top then UNION else DIFFERENCE);
                          LogBooleanError] |} /\
  (radii_nonzero cfg ->
   exists hemisphere' l,
     yields (add_keys cfg host hemisphere ((shape, (x, y)) :: rest) is_top) w
            hemisphere' (rng w) l /\
     evaluations l = S (length rest) /\
     logged_keys l = (shape, (x, y)) :: rest).
Proof.
  intros Hkey Hfail.
  assert (Hstep :
    add_key cfg host hemisphere i (shape, (x, y)) is_top w =
      (Ok (with_modifier hemisphere
             (bool_modifier key (if is_top then UNION else DIFFERENCE))),
       {| rng := rng w;
          log := log w ++ [LogKey i shape x y;
                           LogApplying (if is_top then UNION else DIFFERENCE);
                           LogBooleanError] |})).
  { rewrite (add_key_eq cfg host hemisphere i shape x y is_top key w Hkey).
    rewrite boolean_eq. cbn [rng log]. rewrite Hfail.
    now rewrite <- app_assoc. }
  split; [exact Hstep|]. split; [reflexivity|]. split.
  - cbn [add_keys_loop]. unfold bind at 1. now rewrite Hstep.
  - intros Hnz.
    destruct (add_keys_yields cfg host hemisphere ((shape, (x, y)) :: rest) is_top w Hnz)
      as (h & l & Hy & Hk & He & _).
    exists h, l. auto.
Qed.

Lemma failed_boolean_is_skipped_witness :
  exists hemisphere',
    add_key USER_SETTINGS failing_host
      {| data := {| verts := [(0, 0, 30)]; faces := [] |}; modifiers := [] |}
      1 (cylinder_shape, (3, 4)) true (empty_world (constant_random 0)) =
      (Ok hemisphere',
       {| rng := constant_random 0;
          log := [LogKey 1 cylinder_shape 3 4; LogApplying UNION; LogBooleanError] |}) /\
    data hemisphere' = {| verts := [(0, 0, 30)]; faces := [] |}.
Proof.
  destruct (failed_boolean_is_skipped USER_SETTINGS failing_host
              {| data := {| verts := [(0, 0, 30)]; faces := [] |}; modifiers := [] |}
              1 cylinder_shape 3 4 true [] (empty_world (constant_random 0))
              {| key_data := primitive_cylinder_add failing_host
                               (peg_radius USER_SETTINGS) (peg_height USER_SETTINGS) 32;
                 key_location := (3, 4, - (peg_height USER_SETTINGS / 2
                                           - OVERLAP USER_SETTINGS)) |})
    as (Hstep & Hdata & _).
  - reflexivity.
  - reflexivity.
  - eexists. split; [exact Hstep|exact Hdata].
Defined.

Lemma USER_radii_nonzero : radii_nonzero USER_SETTINGS.
Proof.
  unfold radii_nonzero, peg_radius, socket_radius. simpl. split; lra.
Qed.

Lemma USER_KEYS_PER_BEAD : KEYS_PER_BEAD USER_SETTINGS = 4%nat.
Proof. reflexivity. Qed.

Lemma rng_empty_world g : rng (empty_world g) = g.
Proof. reflexivity. Qed.

(** [zip] of the shape list with a sequence that is not longer keeps every
    position and drops the shapes left without one. *)
Lemma combine_short {A B} (shapes : list A) (coords : list B) :
  (length coords <= length shapes)%nat ->
  length (combine shapes coords) = length coords /\
  map snd (combine shapes coords) = coords /\
  map fst (combine shapes coords) = firstn (length coords) shapes.
Proof.
  revert coords. induction shapes as [|s shapes IH]; intros [|c coords] Hlen;
    simpl in *; try lia; auto.
  destruct (IH coords) as (H1 & H2 & H3); [lia|].
  now rewrite H1, H2, H3.
Qed.

(** C1: in every bead the placements are drawn by one call of the planner,
    which is all the bead takes from the generator; the log of the bead
    splits at its three headings into the entries of the top half, those
    of the bottom half and the rest, and the key specs the top half
    announces, those the bottom half announces and the specs of the bead
    pair are one and the same sequence. *)
Theorem halves_share_key_specs (cfg : Settings) (host : Host) (idx : nat)
    (w : World) :
  radii_nonzero cfg ->
  exists coords g' pair top_log bottom_log tail_log,
    random_key_positions cfg (KEYS_PER_BEAD cfg) (rng w) = (coords, g') /\
    bead_step cfg host idx w =
      (Ok pair,
       {| rng := g';
          log := log w ++ [LogTopHalf idx] ++ top_log ++ [LogBottomHalf idx]
                   ++ bottom_log ++ [LogExporting idx] ++ tail_log |}) /\
    bead_specs pair = combine (KEY_SHAPES cfg) coords /\
    logged_keys top_log = bead_specs pair /\
    logged_keys bottom_log = bead_specs pair /\
    logged_keys top_log = logged_keys bottom_log /\
    logged_keys tail_log = [] /\
    forallb inside_half top_log = true /\
    forallb inside_half bottom_log = true.
Proof.
  intros Hnz.
  destruct (bead_step_yields cfg host idx w Hnz)
    as (coords & g' & pair & top_log & bottom_log & tail_log
        & Hrun & Hstep & Hspecs & Htop & Hbottom & _ & _ & Htail & Hin1 & Hin2).
  exists coords, g', pair, top_log, bottom_log, tail_log.
  split; [exact Hrun|]. split; [exact Hstep|]. split; [exact Hspecs|].
  rewrite Hspecs, Htop, Hbottom. auto 10.
Qed.

Lemma halves_share_key_specs_witness :
  exists pair top_log bottom_log w',
    bead_step USER_SETTINGS failing_host 1 (empty_world two_point_random) =
      (Ok pair, w') /\
    logged_keys top_log = bead_specs pair /\
    logged_keys bottom_log = bead_specs pair.
Proof.
  destruct (halves_share_key_specs USER_SETTINGS failing_host 1
              (empty_world two_point_random))
    as (coords & g' & pair & top_log & bottom_log & tail_log
        & _ & Hstep & _ & Htop & Hbottom & _).
  - exact USER_radii_nonzero.
  - exists pair, top_log, bottom_log. eexists.
    split; [exact Hstep|]. split; [exact Htop|exact Hbottom].
Defined.

(** The loop, entered in the state reached after [a] iterations of its
    body, all of them with fewer than n positions accepted, leaves in the
    state reached after as many iterations as it counts attempts, all of
    them again with fewer than n positions accepted. *)
Lemma place_loop_iter (cfg : Settings) (n : nat) (g0 : Random) :
  forall fuel a coords g,
    place_iter cfg a g0 = (coords, g) ->
    (forall k, (k < a)%nat -> (length (fst (place_iter cfg k g0)) < n)%nat) ->
    place_iter cfg (snd (fst (place_loop cfg fuel n coords a g))) g0 =
      (fst (fst (place_loop cfg fuel n coords a g)),
       snd (place_loop cfg fuel n coords a g)) /\
    (forall k, (k < snd (fst (place_loop cfg fuel n coords a g)))%nat ->
               (length (fst (place_iter cfg k g0)) < n)%nat).
Proof.
  induction fuel as [|fuel IH]; intros a coords g Hstate Hbefore.
  - rewrite place_loop_O. cbn [fst snd]. split; [exact Hstate|exact Hbefore].
  - rewrite place_loop_S.
    destruct (length coords <? n)%nat eqn:Hlen; cbn [andb];
      [|cbn [fst snd]; split; [exact Hstate|exact Hbefore]].
    destruct (a <? 1000)%nat eqn:Hatt;
      [|cbn [fst snd]; split; [exact Hstate|exact Hbefore]].
    apply IH.
    + cbn [place_iter]. rewrite Hstate. cbn [fst snd].
      now destruct (place_step cfg coords g).
    + intros k Hk. destruct (Nat.eq_dec k a) as [->|Hne].
      * rewrite Hstate. cbn [fst]. now apply Nat.ltb_lt.
      * apply Hbefore. lia.
Qed.

Lemma place_run_iter (cfg : Settings) (n : nat) (g : Random) :
  place_iter cfg (snd (fst (place_run cfg n g))) g =
    (fst (fst (place_run cfg n g)), snd (place_run cfg n g)) /\
  (forall k, (k < snd (fst (place_run cfg n g)))%nat ->
             (length (fst (place_iter cfg k g)) < n)%nat).
Proof.
  assert (Hbefore : forall k, (k < 0)%nat ->
                              (length (fst (place_iter cfg k g)) < n)%nat)
    by (intros k Hk; lia).
  exact (place_loop_iter cfg n g 1000%nat 0%nat [] g eq_refl Hbefore).
Qed.

(** C7: the planner returns at most n positions after at most 1000
    attempts, leaving its loop with n positions or with the budget used
    up, two draws per attempt; it stops at the first of the two: what it
    returns is the state after as many iterations of the loop body as it
    counts attempts, and after every smaller number of iterations fewer
    than n positions were accepted.  [zip] pairs the positions it is given
    with as many leading shapes; the bead is then built from these specs,
    with one boolean evaluation per spec and half, nothing being raised,
    and the run builds all its beads. *)
Theorem placement_shortfall_tolerated (cfg : Settings) (host : Host)
    (n : nat) (g : Random) (idx : nat) (w : World) (log_opened : bool) :
  radii_nonzero cfg ->
  (length (fst (random_key_positions cfg n g)) <= n)%nat /\
  (exists attempts,
      place_run cfg n g =
        (fst (random_key_positions cfg n g), attempts,
         snd (random_key_positions cfg n g)) /\
      (attempts <= 1000)%nat /\
      (length (fst (random_key_positions cfg n g)) = n \/ attempts = 1000%nat) /\
      cursor (snd (random_key_positions cfg n g)) = (cursor g + 2 * attempts)%nat /\
      place_iter cfg attempts g = random_key_positions cfg n g /\
      (forall k, (k < attempts)%nat ->
                 (length (fst (place_iter cfg k g)) < n)%nat /\ (k < 1000)%nat)) /\
  (length (combine (KEY_SHAPES cfg)
             (fst (random_key_positions cfg (KEYS_PER_BEAD cfg) (rng w)))) =
     length (fst (random_key_positions cfg (KEYS_PER_BEAD cfg) (rng w))) /\
   map snd (combine (KEY_SHAPES cfg)
              (fst (random_key_positions cfg (KEYS_PER_BEAD cfg) (rng w)))) =
     fst (random_key_positions cfg (KEYS_PER_BEAD cfg) (rng w)) /\
   map fst (combine (KEY_SHAPES cfg)
              (fst (random_key_positions cfg (KEYS_PER_BEAD cfg) (rng w)))) =
     firstn (length (fst (random_key_positions cfg (KEYS_PER_BEAD cfg) (rng w))))
            (KEY_SHAPES cfg)) /\
  (exists pair top_log bottom_log tail_log,
      yields (bead_step cfg host idx) w pair
             (snd (random_key_positions cfg (KEYS_PER_BEAD cfg) (rng w)))
             ([LogTopHalf idx] ++ top_log ++ [LogBottomHalf idx] ++ bottom_log
                ++ [LogExporting idx] ++ tail_log) /\
      bead_specs pair =
        combine (KEY_SHAPES cfg)
                (fst (random_key_positions cfg (KEYS_PER_BEAD cfg) (rng w))) /\
      evaluations top_log =
        length (fst (random_key_positions cfg (KEYS_PER_BEAD cfg) (rng w))) /\
      evaluations bottom_log =
        length (fst (random_key_positions cfg (KEYS_PER_BEAD cfg) (rng w)))) /\
  (exists beads w',
      generate_beads cfg host true log_opened w = (Some beads, w') /\
      length beads = BEAD_COUNT cfg).
Proof.
  intros Hnz.
  assert (Hpair : forall g0,
    length (combine (KEY_SHAPES cfg)
              (fst (random_key_positions cfg (KEYS_PER_BEAD cfg) g0))) =
      length (fst (random_key_positions cfg (KEYS_PER_BEAD cfg) g0)) /\
    map snd (combine (KEY_SHAPES cfg)
               (fst (random_key_positions cfg (KEYS_PER_BEAD cfg) g0))) =
      fst (random_key_positions cfg (KEYS_PER_BEAD cfg) g0) /\
    map fst (combine (KEY_SHAPES cfg)
               (fst (random_key_positions cfg (KEYS_PER_BEAD cfg) g0))) =
      firstn (length (fst (random_key_positions cfg (KEYS_PER_BEAD cfg) g0)))
             (KEY_SHAPES cfg)).
  { intros g0. apply combine_short.
    rewrite random_key_positions_fst. apply place_run_length. }
  split; [|split; [|split; [|split]]].
  - rewrite random_key_positions_fst. apply place_run_length.
  - exists (snd (fst (place_run cfg n g))).
    destruct (place_run_iter cfg n g) as [Hiter Hbefore].
    pose proof (place_run_attempts cfg n g) as Hbudget.
    assert (Hresult : random_key_positions cfg n g =
                      (fst (fst (place_run cfg n g)), snd (place_run cfg n g))).
    { unfold random_key_positions.
      now destruct (place_run cfg n g) as [[coords attempts] g']. }
    rewrite random_key_positions_fst, random_key_positions_snd.
    split; [|split; [|split; [|split; [|split]]]].
    + now destruct (place_run cfg n g) as [[coords attempts] g'].
    + exact Hbudget.
    + apply place_run_exit.
    + apply place_run_cursor.
    + rewrite Hresult. exact Hiter.
    + intros k Hk. split; [now apply Hbefore|lia].
  - apply Hpair.
  - destruct (bead_step_yields cfg host idx w Hnz)
      as (coords & g' & pair & top_log & bottom_log & tail_log
          & Hrun & Hstep & Hspecs & _ & _ & Htop & Hbottom & _).
    destruct (Hpair (rng w)) as [Hlen _].
    rewrite Hrun in *. cbn [fst snd] in *.
    exists pair, top_log, bottom_log, tail_log.
    split; [exact Hstep|]. split; [exact Hspecs|].
    rewrite Htop, Hbottom, Hlen. auto.
  - destruct (generate_beads_completes cfg host Hnz log_opened w)
      as (beads & g1 & l & Hgen & Hlen).
    exists beads. eexists. split; [exact Hgen|exact Hlen].
Qed.

Lemma placement_shortfall_tolerated_witness :
  length (fst (random_key_positions USER_SETTINGS 4 (constant_random 0))) = 1%nat /\
  (exists pair top_log bottom_log tail_log g',
      yields (bead_step USER_SETTINGS failing_host 1)
             (empty_world (constant_random 0)) pair g'
             ([LogTopHalf 1] ++ top_log ++ [LogBottomHalf 1] ++ bottom_log
                ++ [LogExporting 1] ++ tail_log) /\
      length (bead_specs pair) = 1%nat /\
      evaluations top_log = 1%nat /\ evaluations bottom_log = 1%nat) /\
  (exists beads w',
      generate_beads USER_SETTINGS failing_host true true
                     (empty_world (constant_random 0)) = (Some beads, w') /\
      length beads = 4%nat) /\
  (exists attempts,
      place_run USER_SETTINGS 1 two_point_random =
        (fst (random_key_positions USER_SETTINGS 1 two_point_random), attempts,
         snd (random_key_positions USER_SETTINGS 1 two_point_random)) /\
      (attempts <= 1)%nat).
Proof.
  assert (Hshort :
    fst (random_key_positions USER_SETTINGS 4 (constant_random 0)) =
    [fst (candidate USER_SETTINGS (constant_random 0))]).
  { rewrite random_key_positions_fst. apply stuck_run; [simpl; lra|lia]. }
  destruct (placement_shortfall_tolerated USER_SETTINGS failing_host 4
              (constant_random 0) 1 (empty_world (constant_random 0)) true)
    as (_ & _ & (Hlen & _) & (pair & top_log & bottom_log & tail_log
                              & Hstep & Hspecs & Htop & Hbottom) & Hgen).
  - exact USER_radii_nonzero.
  - rewrite rng_empty_world, USER_KEYS_PER_BEAD in *.
    rewrite Hshort in *.
    split; [reflexivity|]. split; [|split].
    + exists pair, top_log, bottom_log, tail_log. eexists.
      split; [exact Hstep|].
      rewrite Hspecs. split; [exact Hlen|]. split; [exact Htop|exact Hbottom].
    + exact Hgen.
    + destruct (placement_shortfall_tolerated USER_SETTINGS failing_host 1
                  two_point_random 1 (empty_world (constant_random 0)) true)
        as (_ & (attempts & Hrun & _ & _ & _ & _ & Hbefore) & _).
      * exact USER_radii_nonzero.
      * exists attempts. split; [exact Hrun|].
        destruct (Nat.le_gt_cases attempts 1) as [Hle|Hgt]; [exact Hle|].
        exfalso. destruct (Hbefore 1%nat Hgt) as [Hone _].
        cbn [place_iter fst snd] in Hone.
        rewrite place_step_accept in Hone by apply Forall_nil.
        cbn [fst app length] in Hone. lia.
Defined.

(** ** Further properties of the key placement planner *)

Lemma candidate_in_disk cfg g :
  0 <= usable_radius cfg ->
  0 <= draws g (cursor g) < 1 ->
  hypot (fst (fst (candidate cfg g))) (snd (fst (candidate cfg g)))
    <= usable_radius cfg.
Proof.
  intros HU [Hlo Hhi]. rewrite candidate_eq. cbn [fst snd].
  rewrite hypot_polar by nra. nra.
Qed.

(** X1. Containment: with the draws of the generator in [0, 1) and a usable
    radius that is not negative, every position the planner returns lies
    within the usable radius of the centre, so that a circle of radius
    MAX_KEY_RADIUS around it stays within INNER_R. *)
Theorem accepted_positions_contained (cfg : Settings) (n : nat) (g : Random) :
  0 <= usable_radius cfg ->
  (forall k, 0 <= draws g k < 1) ->
  Forall (fun p => hypot (fst p) (snd p) <= usable_radius cfg /\
                   hypot (fst p) (snd p) + MAX_KEY_RADIUS cfg <= INNER_R cfg)
         (fst (random_key_positions cfg n g)).
Proof.
  intros HU Hdraws. rewrite random_key_positions_fst.
  assert (H : draws (snd (place_run cfg n g)) = draws g /\
              Forall (fun p => hypot (fst p) (snd p) <= usable_radius cfg)
                     (fst (fst (place_run cfg n g)))).
  { refine (place_run_rule cfg n g
              (fun coords _ g' =>
                 draws g' = draws g /\
                 Forall (fun p => hypot (fst p) (snd p) <= usable_radius cfg) coords)
              _ _).
    - split; [reflexivity|apply Forall_nil].
    - intros coords attempts g0 _ _ [Hg Hc]. split.
      + rewrite place_step_rng, candidate_eq. exact Hg.
      + pose proof (candidate_in_disk cfg g0 HU) as Hin.
        rewrite Hg in Hin. specialize (Hin (Hdraws _)).
        unfold place_step. destruct (candidate cfg g0) as [[x y] g'].
        cbn [fst snd] in *.
        destruct (forallb (separated cfg x y) coords); cbn [fst]; [|exact Hc].
        apply Forall_app. split; [exact Hc|].
        apply Forall_cons; [exact Hin|apply Forall_nil]. }
  destruct H as [_ H]. revert H. apply Forall_impl.
  intros p Hp. split; [exact Hp|]. unfold usable_radius in Hp. lra.
Qed.

Lemma two_point_draws k : 0 <= draws two_point_random k < 1.
Proof.
  destruct k as [|[|[|[|k]]]]; simpl; lra.
Qed.

Lemma accepted_positions_contained_witness :
  Forall (fun p => hypot (fst p) (snd p) <= usable_radius USER_SETTINGS /\
                   hypot (fst p) (snd p) + MAX_KEY_RADIUS USER_SETTINGS
                     <= INNER_R USER_SETTINGS)
         (fst (random_key_positions USER_SETTINGS 2 two_point_random)).
Proof.
  apply (accepted_positions_contained USER_SETTINGS 2 two_point_random).
  - rewrite USER_usable_radius. lra.
  - exact two_point_draws.
Defined.

(** Asking for one more position only extends the answer. *)
Lemma place_loop_more cfg fuel n coords attempts g :
  exists rest,
    fst (fst (place_loop cfg fuel (S n) coords attempts g)) =
    fst (fst (place_loop cfg fuel n coords attempts g)) ++ rest.
Proof.
  revert coords attempts g.
  induction fuel as [|fuel IH]; intros coords attempts g.
  - exists []. rewrite !place_loop_O. cbn [fst]. now rewrite app_nil_r.
  - rewrite (place_loop_S cfg fuel n).
    destruct (length coords <? n)%nat eqn:Hlen.
    + destruct (attempts <? 1000)%nat eqn:Hatt; cbn [andb].
      * rewrite place_loop_S.
        replace (length coords <? S n)%nat with true
          by (symmetry; apply Nat.ltb_lt; apply Nat.ltb_lt in Hlen; lia).
        rewrite Hatt. cbn [andb]. apply IH.
      * rewrite place_loop_S, Hatt, andb_false_r. cbn [fst].
        exists []. now rewrite app_nil_r.
    + cbn [andb fst]. apply place_loop_extends.
Qed.

(** X2. Prefix stability: the positions returned for a count m are the first
    positions returned for any larger count n, from the same generator. *)
Theorem positions_extend_with_count (cfg : Settings) (m n : nat) (g : Random) :
  (m <= n)%nat ->
  exists rest,
    fst (random_key_positions cfg n g) =
    fst (random_key_positions cfg m g) ++ rest.
Proof.
  intros Hmn. induction Hmn as [|n Hmn IH].
  - exists []. now rewrite app_nil_r.
  - destruct IH as [rest IH].
    rewrite !random_key_positions_fst in *. rewrite !place_run_unfold in *.
    destruct (place_loop_more cfg 1000 n [] 0 g) as [more Hmore].
    exists (rest ++ more). rewrite Hmore, IH. now rewrite app_assoc.
Qed.

Lemma positions_extend_with_count_witness :
  exists rest,
    fst (random_key_positions USER_SETTINGS 2 two_point_random) =
    fst (random_key_positions USER_SETTINGS 1 two_point_random) ++ rest.
Proof.
  apply (positions_extend_with_count USER_SETTINGS 1 2 two_point_random). lia.
Defined.

Lemma place_run_zero cfg g : place_run cfg 0 g = ([], 0%nat, g).
Proof.
  rewrite place_run_unfold. change 1000%nat with (S 999).
  rewrite place_loop_S. reflexivity.
Qed.

Lemma random_key_positions_zero cfg g : random_key_positions cfg 0 g = ([], g).
Proof.
  unfold random_key_positions. now rewrite place_run_zero.
Qed.

(** X4. No key shape: the planner is asked for zero positions, returns none
    and draws nothing; the bead is built from an empty list of specs,
    without any boolean evaluation, and leaves the generator as it was. *)
Theorem bead_without_keys (cfg : Settings) (host : Host) (idx : nat) (w : World) :
  radii_nonzero cfg ->
  KEY_SHAPES cfg = [] ->
  random_key_positions cfg (KEYS_PER_BEAD cfg) (rng w) = ([], rng w) /\
  exists pair top_log bottom_log tail_log,
    yields (bead_step cfg host idx) w pair (rng w)
           ([LogTopHalf idx] ++ top_log ++ [LogBottomHalf idx] ++ bottom_log
              ++ [LogExporting idx] ++ tail_log) /\
    bead_specs pair = [] /\
    evaluations top_log = 0%nat /\ evaluations bottom_log = 0%nat /\
    logged_keys top_log = [] /\ logged_keys bottom_log = [].
Proof.
  intros Hnz Hshapes.
  assert (Hrun : random_key_positions cfg (KEYS_PER_BEAD cfg) (rng w) = ([], rng w)).
  { unfold KEYS_PER_BEAD. rewrite Hshapes. apply random_key_positions_zero. }
  split; [exact Hrun|].
  destruct (bead_step_yields cfg host idx w Hnz)
    as (coords & g' & pair & top_log & bottom_log & tail_log
        & Hrun' & Hstep & Hspecs & Htop & Hbottom & Hetop & Hebottom & _).
  rewrite Hrun in Hrun'. injection Hrun' as <- <-.
  rewrite Hshapes in *. cbn [combine length] in *.
  exists pair, top_log, bottom_log, tail_log. auto 10.
Qed.

Lemma bead_without_keys_witness :
  exists pair l,
    yields (bead_step NO_KEY_SETTINGS failing_host 1) (empty_world two_point_random)
           pair two_point_random l /\
    bead_specs pair = [].
Proof.
  destruct (bead_without_keys NO_KEY_SETTINGS failing_host 1
              (empty_world two_point_random))
    as (_ & pair & top_log & bottom_log & tail_log & Hstep & Hspecs & _).
  - unfold radii_nonzero, peg_radius, socket_radius. simpl. split; lra.
  - reflexivity.
  - exists pair. eexists. split; [exact Hstep|exact Hspecs].
Defined.

Lemma skip_zero g : skip g 0 = g.
Proof.
  destruct g as [d c]. unfold skip. cbn [draws cursor]. f_equal. lia.
Qed.

Lemma candidate_skip cfg g k :
  candidate cfg (skip g k) = (nth_candidate cfg g k, skip g (S k)).
Proof.
  unfold nth_candidate. rewrite candidate_eq. cbn [fst].
  apply f_equal2; [reflexivity|].
  unfold skip. cbn [draws cursor].
  replace (S (S (cursor g + 2 * k))) with (cursor g + 2 * S k)%nat by lia.
  reflexivity.
Qed.

Lemma ForallOrdPairs_before {A} (P : A -> A -> Prop) (l1 l2 : list A) (a : A) :
  ForallOrdPairs P (l1 ++ a :: l2) -> Forall (fun c => P c a) l1.
Proof.
  induction l1 as [|c l1 IH]; intros H; [apply Forall_nil|].
  inversion H as [|? ? Hc Hrest]; subst.
  apply Forall_cons.
  - rewrite Forall_forall in Hc. apply Hc. apply in_or_app. right. now left.
  - now apply IH.
Qed.

Lemma place_loop_all_accepted cfg n g :
  (n <= 1000)%nat ->
  ForallOrdPairs (apart cfg) (map (nth_candidate cfg g) (seq 0 n)) ->
  forall d k fuel,
    (k + d = n)%nat -> (d <= fuel)%nat ->
    place_loop cfg fuel n (map (nth_candidate cfg g) (seq 0 k)) k (skip g k) =
    (map (nth_candidate cfg g) (seq 0 n), n, skip g n).
Proof.
  intros Hn Hall. induction d as [|d IH]; intros k fuel Hk Hfuel.
  - assert (k = n) by lia. subst k.
    destruct fuel as [|fuel]; [reflexivity|].
    rewrite place_loop_S, length_map, length_seq, Nat.ltb_irrefl. reflexivity.
  - destruct fuel as [|fuel]; [lia|].
    rewrite place_loop_S, length_map, length_seq.
    replace (k <? n)%nat with true by (symmetry; apply Nat.ltb_lt; lia).
    replace (k <? 1000)%nat with true by (symmetry; apply Nat.ltb_lt; lia).
    cbn [andb].
    rewrite place_step_accept; rewrite candidate_skip; cbn [fst snd].
    + replace (map (nth_candidate cfg g) (seq 0 k) ++ [nth_candidate cfg g k])
        with (map (nth_candidate cfg g) (seq 0 (S k)))
        by (rewrite seq_S, map_app; reflexivity).
      apply IH; lia.
    + replace n with (k + S d)%nat in Hall by lia.
      rewrite seq_app, map_app in Hall. cbn [seq map Nat.add] in Hall.
      exact (ForallOrdPairs_before _ _ _ _ Hall).
Qed.

(** X3. When the first n candidates keep the separation from one another and
    n is within the budget, the planner returns exactly these n
    candidates, in the order drawn, after n attempts and 2 n draws. *)
Theorem separated_candidates_all_accepted (cfg : Settings) (n : nat) (g : Random) :
  (n <= 1000)%nat ->
  ForallOrdPairs (apart cfg) (map (nth_candidate cfg g) (seq 0 n)) ->
  place_run cfg n g = (map (nth_candidate cfg g) (seq 0 n), n, skip g n) /\
  random_key_positions cfg n g =
    (map (nth_candidate cfg g) (seq 0 n), skip g n).
Proof.
  intros Hn Hall.
  assert (Hrun : place_run cfg n g =
                 (map (nth_candidate cfg g) (seq 0 n), n, skip g n)).
  { rewrite place_run_unfold.
    pose proof (place_loop_all_accepted cfg n g Hn Hall n 0%nat 1000%nat) as H.
    rewrite skip_zero in H. apply H; lia. }
  split; [exact Hrun|].
  unfold random_key_positions. now rewrite Hrun.
Qed.

Lemma two_point_candidates :
  map (nth_candidate USER_SETTINGS two_point_random) (seq 0 2) =
  [(21 / 4, 0); (- (63 / 4), 0)].
Proof.
  cbn [seq map]. unfold nth_candidate.
  rewrite skip_zero, two_point_first.
  replace (skip two_point_random 1)
    with (snd (candidate USER_SETTINGS two_point_random))
    by (rewrite candidate_eq; reflexivity).
  now rewrite two_point_second.
Qed.

Lemma separated_candidates_all_accepted_witness :
  random_key_positions USER_SETTINGS 2 two_point_random =
  (map (nth_candidate USER_SETTINGS two_point_random) (seq 0 2),
   skip two_point_random 2).
Proof.
  apply (separated_candidates_all_accepted USER_SETTINGS 2 two_point_random).
  - lia.
  - rewrite two_point_candidates.
    apply FOP_cons; [|apply FOP_cons; [apply Forall_nil|apply FOP_nil]].
    apply Forall_cons; [|apply Forall_nil].
    unfold apart, distance. cbn [fst snd MAX_KEY_RADIUS USER_SETTINGS].
    replace (- (63 / 4) - 21 / 4) with (- 21) by lra.
    replace (0 - 0) with 0 by lra.
    unfold hypot. replace (- 21 * - 21 + 0 * 0) with (21 * 21) by lra.
    rewrite sqrt_square; lra.
Defined.

(** ** Further properties of the noise displacement *)

Lemma vlength_vscale (a : Vec3) (k : R) : vlength (a *v k) = Rabs k * vlength a.
Proof.
  unfold vlength, vscale, vx, vy, vz. cbn [fst snd].
  replace (fst (fst a) * k * (fst (fst a) * k) + snd (fst a) * k * (snd (fst a) * k)
           + snd a * k * (snd a * k))
    with (k² * (fst (fst a) * fst (fst a) + snd (fst a) * snd (fst a) + snd a * snd a))
    by (unfold Rsqr; ring).
  rewrite sqrt_mult_alt by apply Rle_0_sqr.
  now rewrite sqrt_Rsqr_abs.
Qed.

Lemma vlength_nonneg (a : Vec3) : 0 <= vlength a.
Proof. apply sqrt_pos. Qed.

Lemma displace_radial cfg host (v : Vec3) :
  vlength v <> 0 ->
  displace cfg host v =
  v *v (1 + noise host (v *v noise_scale cfg) * noise_strength cfg / vlength v).
Proof.
  intros Hv. unfold displace, normalized.
  destruct (Req_dec_T (vlength v) 0) as [E|_]; [contradiction|].
  unfold vadd, vscale, vx, vy, vz. cbn [fst snd].
  apply f_equal2; [apply f_equal2|]; field; exact Hv.
Qed.

(** X5. The displacement is radial: a vertex away from the origin stays on its
    ray and its distance from the origin changes by noise times amplitude
    (as long as that keeps it on the same side); on the sphere of radius
    OUTER_R, with a noise between -1 and 1, the displaced vertex lies
    between 0.7 and 1.3 times OUTER_R from the origin.  A vertex at the
    origin is left there. *)
Theorem displacement_is_radial (cfg : Settings) (host : Host) (v : Vec3) :
  (0 < vlength v ->
   0 <= vlength v + noise host (v *v noise_scale cfg) * noise_strength cfg ->
   displace cfg host v =
     v *v (1 + noise host (v *v noise_scale cfg) * noise_strength cfg / vlength v) /\
   vlength (displace cfg host v) =
     vlength v + noise host (v *v noise_scale cfg) * noise_strength cfg) /\
  (0 < OUTER_R cfg -> vlength v = OUTER_R cfg ->
   -1 <= noise host (v *v noise_scale cfg) <= 1 ->
   0.7 * OUTER_R cfg <= vlength (displace cfg host v) <= 1.3 * OUTER_R cfg) /\
  displace cfg host (0, 0, 0) = (0, 0, 0).
Proof.
  assert (Hlen : 0 < vlength v ->
    0 <= vlength v + noise host (v *v noise_scale cfg) * noise_strength cfg ->
    vlength (displace cfg host v) =
      vlength v + noise host (v *v noise_scale cfg) * noise_strength cfg).
  { intros Hv Hpos.
    rewrite displace_radial by lra. rewrite vlength_vscale.
    rewrite Rabs_right.
    - field. lra.
    - apply Rle_ge.
      replace (1 + noise host (v *v noise_scale cfg) * noise_strength cfg / vlength v)
        with ((vlength v + noise host (v *v noise_scale cfg) * noise_strength cfg)
              * / vlength v) by (field; lra).
      apply Rmult_le_pos; [exact Hpos|].
      apply Rlt_le, Rinv_0_lt_compat, Hv. }
  split; [|split].
  - intros Hv Hpos. split; [apply displace_radial; lra|now apply Hlen].
  - intros HR Hv [Hlo Hhi].
    assert (Hpos : 0 <= vlength v
                        + noise host (v *v noise_scale cfg) * noise_strength cfg)
      by (unfold noise_strength; rewrite Hv; nra).
    rewrite Hlen by first [assumption | rewrite Hv; assumption].
    unfold noise_strength. rewrite Hv. nra.
  - unfold displace, normalized.
    destruct (Req_dec_T (vlength (0, 0, 0)) 0);
      unfold vadd, vscale, vx, vy, vz; cbn [fst snd];
      (apply f_equal2; [apply f_equal2|]); ring.
Qed.

Lemma displacement_is_radial_witness :
  0.7 * OUTER_R USER_SETTINGS
    <= vlength (displace USER_SETTINGS failing_host (0, 0, 30))
    <= 1.3 * OUTER_R USER_SETTINGS.
Proof.
  assert (Hlen : vlength (0, 0, 30) = OUTER_R USER_SETTINGS).
  { unfold vlength, vx, vy, vz, OUTER_R. cbn [fst snd SPHERE_DIAMETER USER_SETTINGS].
    replace (0 * 0 + 0 * 0 + 30 * 30) with (30 * 30) by ring.
    rewrite sqrt_square; lra. }
  apply (displacement_is_radial USER_SETTINGS failing_host (0, 0, 30)).
  - unfold OUTER_R. simpl. lra.
  - exact Hlen.
  - simpl. lra.
Defined.

(** ** Further properties of the keys *)

Lemma Forall2_flat_map_same {A B C} (P : B -> C -> Prop)
    (f : A -> list B) (h : A -> list C) (l : list A) :
  (forall a, Forall2 P (f a) (h a)) ->
  Forall2 P (flat_map f l) (flat_map h l).
Proof.
  intros H. induction l as [|a l IH]; simpl.
  - apply Forall2_nil.
  - apply Forall2_app; auto.
Qed.

Lemma Forall2_map_both {A B C D} (P : C -> D -> Prop)
    (f : A -> C) (h : B -> D) (l : list A) (l' : list B) :
  Forall2 (fun a b => P (f a) (h b)) l l' ->
  Forall2 P (map f l) (map h l').
Proof.
  induction 1; simpl; [apply Forall2_nil|apply Forall2_cons; auto].
Qed.

Lemma scaled_about_located (x y k z z' : R) (u v : Vec3) :
  vx u = k * vx v -> vy u = k * vy v ->
  scaled_about x y k ((x, y, z) +v u) ((x, y, z') +v v).
Proof.
  intros Hx Hy. unfold scaled_about, vadd, vx, vy in *. cbn [fst snd] in *.
  rewrite Hx, Hy. split; ring.
Qed.

Lemma prism_scaled (host : Host) (r r' d d' : R) (n : nat) :
  r <> 0 ->
  Forall2 (fun u v => vx u = r' / r * vx v /\ vy u = r' / r * vy v)
          (verts (primitive_cone_add host r' r' d' n))
          (verts (primitive_cone_add host r r d n)).
Proof.
  intros Hr. unfold primitive_cone_add. cbn [verts].
  apply Forall2_flat_map_same. intros k.
  repeat apply Forall2_cons; try apply Forall2_nil;
    unfold ring_vertex, vx, vy; cbn [fst snd]; split; field; exact Hr.
Qed.

Lemma cube_scaled (host : Host) (r r' s s' : R) :
  r <> 0 ->
  Forall2 (fun u v => vx u = r' / r * vx v /\ vy u = r' / r * vy v)
          (verts (apply_scale_z s' (primitive_cube_add host (r' * 2))))
          (verts (apply_scale_z s (primitive_cube_add host (r * 2)))).
Proof.
  intros Hr. unfold apply_scale_z, primitive_cube_add, set_verts.
  cbn [verts map].
  repeat apply Forall2_cons; try apply Forall2_nil;
    unfold vx, vy; cbn [fst snd]; split; field; exact Hr.
Qed.

(** X6. Planar mating: for every shape the outline of the socket tool is the
    outline of the peg tool at the same position, scaled about the key
    centre by (MAX_KEY_RADIUS + CLEARANCE) / MAX_KEY_RADIUS, vertex by
    vertex, hence in the same orientation. *)
Theorem socket_outline_is_scaled_peg (cfg : Settings) (host : Host)
    (shape : Shape) (x y : R) :
  0 < MAX_KEY_RADIUS cfg -> 0 <= CLEARANCE cfg ->
  exists peg socket,
    peg_key cfg host shape x y = Ok peg /\
    socket_key cfg host shape x y = Ok socket /\
    1 <= (MAX_KEY_RADIUS cfg + CLEARANCE cfg) / MAX_KEY_RADIUS cfg /\
    Forall2 (scaled_about x y
               ((MAX_KEY_RADIUS cfg + CLEARANCE cfg) / MAX_KEY_RADIUS cfg))
            (key_world_verts socket) (key_world_verts peg).
Proof.
  intros Hr Hc.
  assert (Hk : 1 <= (MAX_KEY_RADIUS cfg + CLEARANCE cfg) / MAX_KEY_RADIUS cfg).
  { apply (Rmult_le_reg_r (MAX_KEY_RADIUS cfg)); [exact Hr|].
    replace ((MAX_KEY_RADIUS cfg + CLEARANCE cfg) / MAX_KEY_RADIUS cfg
             * MAX_KEY_RADIUS cfg)
      with (MAX_KEY_RADIUS cfg + CLEARANCE cfg) by (field; lra).
    lra. }
  assert (Hne : MAX_KEY_RADIUS cfg <> 0) by lra.
  assert (Hloc : forall (m m' : Mesh) (z z' : R),
    Forall2 (fun u v => vx u = (MAX_KEY_RADIUS cfg + CLEARANCE cfg)
                                / MAX_KEY_RADIUS cfg * vx v /\
                        vy u = (MAX_KEY_RADIUS cfg + CLEARANCE cfg)
                                / MAX_KEY_RADIUS cfg * vy v)
            (verts m') (verts m) ->
    Forall2 (scaled_about x y
               ((MAX_KEY_RADIUS cfg + CLEARANCE cfg) / MAX_KEY_RADIUS cfg))
            (key_world_verts {| key_data := m'; key_location := (x, y, z') |})
            (key_world_verts {| key_data := m; key_location := (x, y, z) |})).
  { intros m m' z z' H. unfold key_world_verts. cbn [key_data key_location].
    apply Forall2_map_both. revert H. apply Forall2_impl.
    intros u v [Hx Hy]. now apply scaled_about_located. }
  unfold peg_key, socket_key, peg_radius, socket_radius, peg_height, socket_height.
  destruct shape; cbn [SHAPE_FACTORIES];
    unfold cylinder, triangular_prism, hexagon, primitive_cylinder_add;
    rewrite ?square_prism_ok by lra;
    eexists; eexists; (split; [reflexivity|]); (split; [reflexivity|]);
    (split; [exact Hk|]); apply Hloc;
    first [apply prism_scaled; exact Hne | apply cube_scaled; exact Hne].
Qed.

Lemma socket_outline_is_scaled_peg_witness :
  exists peg socket,
    peg_key USER_SETTINGS failing_host triangle_shape 3 4 = Ok peg /\
    socket_key USER_SETTINGS failing_host triangle_shape 3 4 = Ok socket /\
    Forall2 (scaled_about 3 4
               ((MAX_KEY_RADIUS USER_SETTINGS + CLEARANCE USER_SETTINGS)
                / MAX_KEY_RADIUS USER_SETTINGS))
            (key_world_verts socket) (key_world_verts peg).
Proof.
  destruct (socket_outline_is_scaled_peg USER_SETTINGS failing_host
              triangle_shape 3 4)
    as (peg & socket & Hpeg & Hsocket & _ & H).
  - simpl. lra.
  - simpl. lra.
  - exists peg, socket. split; [exact Hpeg|]. split; [exact Hsocket|exact H].
Defined.

(** X7. Axial mating: below the flat face the peg reaches down to
    -(PEG_LENGTH - OVERLAP) and the socket tool down to -OVERLAP, so the
    peg stays within the depth of the socket exactly when PEG_LENGTH is at
    most twice OVERLAP; with a longer peg its lowest vertices lie below
    every vertex of the socket tool. *)
Theorem peg_within_socket_depth (cfg : Settings) (host : Host) (shape : Shape)
    (x y : R) :
  0 < MAX_KEY_RADIUS cfg -> 0 <= CLEARANCE cfg -> 0 <= PEG_LENGTH cfg ->
  exists peg socket,
    peg_key cfg host shape x y = Ok peg /\
    socket_key cfg host shape x y = Ok socket /\
    (exists v, In v (key_world_verts peg) /\
               vz v = - (PEG_LENGTH cfg - OVERLAP cfg) /\
               forall u, In u (key_world_verts peg) -> vz v <= vz u) /\
    (exists v, In v (key_world_verts socket) /\
               vz v = - OVERLAP cfg /\
               forall u, In u (key_world_verts socket) -> vz v <= vz u) /\
    (PEG_LENGTH cfg <= 2 * OVERLAP cfg ->
     forall v, In v (key_world_verts peg) -> - OVERLAP cfg <= vz v) /\
    (2 * OVERLAP cfg < PEG_LENGTH cfg ->
     exists v, In v (key_world_verts peg) /\
               forall u, In u (key_world_verts socket) -> vz v < vz u).
Proof.
  intros Hr Hc Hh.
  assert (Hr' : 0 < socket_radius cfg) by (unfold socket_radius; lra).
  destruct (factory_z_extent host shape (peg_radius cfg) (peg_height cfg) Hr)
    as (mp & Hmp & Hpall & Hplo & Hphi).
  destruct (located_z_extent mp (peg_height cfg) x y
              (- (peg_height cfg / 2 - OVERLAP cfg)) Hpall Hplo Hphi)
    as (Hpall' & (plo & Hplo' & Hzplo) & _).
  destruct (factory_z_extent host shape (socket_radius cfg) (socket_height cfg) Hr')
    as (ms & Hms & Hsall & Hslo & Hshi).
  destruct (located_z_extent ms (socket_height cfg) x y
              (socket_height cfg / 2 - OVERLAP cfg) Hsall Hslo Hshi)
    as (Hsall' & (slo & Hslo' & Hzslo) & _).
  unfold peg_height, socket_height in *.
  eexists; eexists.
  split; [unfold peg_key, peg_height; rewrite Hmp; reflexivity|].
  split; [unfold socket_key, socket_height; rewrite Hms; reflexivity|].
  split; [|split; [|split]].
  - exists plo. split; [exact Hplo'|]. split; [rewrite Hzplo; lra|].
    intros u Hu. rewrite Hzplo. destruct (Hpall' u Hu) as [-> | ->]; lra.
  - exists slo. split; [exact Hslo'|]. split; [rewrite Hzslo; lra|].
    intros u Hu. rewrite Hzslo. destruct (Hsall' u Hu) as [-> | ->]; lra.
  - intros Hfit v Hv. destruct (Hpall' v Hv) as [-> | ->]; lra.
  - intros Hlong. exists plo. split; [exact Hplo'|].
    intros u Hu. rewrite Hzplo. destruct (Hsall' u Hu) as [-> | ->]; lra.
Qed.

Lemma peg_within_socket_depth_witness :
  exists peg,
    peg_key USER_SETTINGS failing_host hexagon_shape 3 4 = Ok peg /\
    forall v, In v (key_world_verts peg) -> - 11 <= vz v.
Proof.
  destruct (peg_within_socket_depth USER_SETTINGS failing_host hexagon_shape 3 4)
    as (peg & socket & Hpeg & _ & _ & _ & Hfit & _).
  - simpl. lra.
  - simpl. lra.
  - simpl. lra.
  - exists peg. split; [exact Hpeg|]. apply Hfit. simpl. lra.
Defined.

(** ** Further properties of the assembly *)

Lemma successes_app l1 l2 :
  successes (l1 ++ l2) = (successes l1 + successes l2)%nat.
Proof.
  induction l1 as [|e l1 IH]; simpl; auto.
  destruct e; simpl; rewrite ?IH; auto.
Qed.

Lemma failures_app l1 l2 :
  failures (l1 ++ l2) = (failures l1 + failures l2)%nat.
Proof.
  induction l1 as [|e l1 IH]; simpl; auto.
  destruct e; simpl; rewrite ?IH; auto.
Qed.

Lemma logged_indices_app l1 l2 :
  logged_indices (l1 ++ l2) = logged_indices l1 ++ logged_indices l2.
Proof.
  induction l1 as [|e l1 IH]; simpl; auto.
  destruct e; simpl; rewrite ?IH; auto.
Qed.

Lemma build_key_ok cfg host is_top spec :
  radii_nonzero cfg -> exists key, build_key cfg host is_top spec = Ok key.
Proof.
  intros [Hpeg Hsocket]. destruct spec as [shape [x y]].
  unfold build_key. cbn [fst snd]. destruct is_top.
  - destruct (peg_key_ok cfg host shape x y Hpeg) as (m & _ & ->). eauto.
  - destruct (socket_key_ok cfg host shape x y Hsocket) as (m & _ & ->). eauto.
Qed.

(** What [add_key] does once its key is built. *)
Lemma add_key_built cfg host hemisphere i spec is_top key w :
  build_key cfg host is_top spec = Ok key ->
  add_key cfg host hemisphere i spec is_top w =
  (Ok (match modifier_apply host
               (with_modifier hemisphere (bool_modifier key (key_operation is_top)))
               (bool_modifier key (key_operation is_top)) with
       | Some m => {| data := m; modifiers := modifiers hemisphere |}
       | None => with_modifier hemisphere (bool_modifier key (key_operation is_top))
       end),
   {| rng := rng w;
      log := log w ++
             [LogKey i (fst spec) (fst (snd spec)) (snd (snd spec));
              LogApplying (key_operation is_top);
              match modifier_apply host
                      (with_modifier hemisphere
                         (bool_modifier key (key_operation is_top)))
                      (bool_modifier key (key_operation is_top)) with
              | Some _ => LogBooleanOk
              | None => LogBooleanError
              end] |}).
Proof.
  destruct spec as [shape [x y]]. intros Hkey.
  assert (Hkey' : (if is_top then peg_key cfg host shape x y
                   else socket_key cfg host shape x y) = Ok key)
    by (destruct is_top; exact Hkey).
  refine (eq_trans (add_key_eq cfg host hemisphere i shape x y is_top key w Hkey') _).
  rewrite boolean_eq. unfold key_operation. cbn [rng log fst snd].
  now rewrite <- app_assoc.
Qed.

Lemma add_keys_loop_account cfg host key_specs is_top :
  radii_nonzero cfg ->
  forall hemisphere i w,
  exists hemisphere' l,
    yields (add_keys_loop cfg host hemisphere i key_specs is_top) w
           hemisphere' (rng w) l /\
    logged_indices l = seq i (length key_specs) /\
    (successes l + failures l = length key_specs)%nat /\
    (exists left_over,
        modifiers hemisphere' = modifiers hemisphere ++ left_over /\
        length left_over = failures l).
Proof.
  intros Hnz. induction key_specs as [|spec rest IH]; intros hemisphere i w.
  - exists hemisphere, []. split; [now apply yields_ret|].
    split; [reflexivity|]. split; [reflexivity|].
    exists []. now rewrite app_nil_r.
  - destruct (build_key_ok cfg host is_top spec Hnz) as [key Hkey].
    pose proof (add_key_built cfg host hemisphere i spec is_top key w Hkey) as Hstep.
    destruct (modifier_apply host
                (with_modifier hemisphere (bool_modifier key (key_operation is_top)))
                (bool_modifier key (key_operation is_top))) as [m|].
    + destruct (IH {| data := m; modifiers := modifiers hemisphere |} (S i)
                  {| rng := rng w;
                     log := log w ++ [LogKey i (fst spec) (fst (snd spec)) (snd (snd spec));
                                      LogApplying (key_operation is_top);
                                      LogBooleanOk] |})
        as (h' & l & Hy & Hidx & Hcount & (left_over & Hmods & Hleft)).
      exists h'. eexists. split; [|split; [|split]].
      * cbn [add_keys_loop]. eapply yields_bind; [exact Hstep|exact Hy].
      * rewrite logged_indices_app, Hidx. reflexivity.
      * rewrite successes_app, failures_app. simpl. lia.
      * exists left_over. split; [exact Hmods|].
        rewrite failures_app. simpl. exact Hleft.
    + destruct (IH (with_modifier hemisphere (bool_modifier key (key_operation is_top)))
                  (S i)
                  {| rng := rng w;
                     log := log w ++ [LogKey i (fst spec) (fst (snd spec)) (snd (snd spec));
                                      LogApplying (key_operation is_top);
                                      LogBooleanError] |})
        as (h' & l & Hy & Hidx & Hcount & (left_over & Hmods & Hleft)).
      exists h'. eexists. split; [|split; [|split]].
      * cbn [add_keys_loop]. eapply yields_bind; [exact Hstep|exact Hy].
      * rewrite logged_indices_app, Hidx. reflexivity.
      * rewrite successes_app, failures_app. simpl. lia.
      * exists (bool_modifier key (key_operation is_top) :: left_over).
        split.
        -- rewrite Hmods. unfold with_modifier. cbn [modifiers].
           now rewrite <- app_assoc.
        -- rewrite failures_app. simpl. now rewrite Hleft.
Qed.

Lemma mesh_cleanup_account host hemisphere w :
  exists hemisphere' l,
    yields (mesh_cleanup host hemisphere) w hemisphere' (rng w) l /\
    modifiers hemisphere' = modifiers hemisphere /\
    logged_indices l = [] /\ successes l = 0%nat /\ failures l = 0%nat.
Proof.
  assert (Hlog : forall e (h : Hemisphere),
             yields (log_message LogCleanup ;;; (log_message e ;;; ret h)) w h
                    (rng w) ([LogCleanup] ++ [e] ++ [])).
  { intros e h.
    eapply yields_bind; [now apply yields_log|].
    eapply yields_bind; [now apply yields_log|]. now apply yields_ret. }
  unfold mesh_cleanup.
  destruct (remove_doubles host (data hemisphere)) as [m1|];
    [destruct (normals_make_consistent host m1) as [m2|]|];
    eexists; eexists; (split; [apply Hlog|repeat split]).
Qed.

(** X8. Accounting of [add_keys]: the keys are announced under the numbers
    1, 2, ... in order; every key gets one evaluation, reported as applied
    or as failed; the hemisphere keeps its modifiers and gains one
    unapplied modifier per failure, none when every evaluation succeeds. *)
Theorem add_keys_accounts_for_every_key (cfg : Settings) (host : Host)
    (hemisphere : Hemisphere) (key_specs : list KeySpec) (is_top : bool)
    (w : World) :
  radii_nonzero cfg ->
  exists hemisphere' l,
    yields (add_keys cfg host hemisphere key_specs is_top) w hemisphere' (rng w) l /\
    logged_indices l = seq 1 (length key_specs) /\
    (successes l + failures l = length key_specs)%nat /\
    (exists left_over,
        modifiers hemisphere' = modifiers hemisphere ++ left_over /\
        length left_over = failures l) /\
    (failures l = 0%nat -> modifiers hemisphere' = modifiers hemisphere).
Proof.
  intros Hnz.
  destruct (add_keys_loop_account cfg host key_specs is_top Hnz hemisphere 1%nat w)
    as (h1 & l1 & H1 & Hidx & Hcount & (left_over & Hmods & Hleft)).
  destruct (mesh_cleanup_account host h1 {| rng := rng w; log := log w ++ l1 |})
    as (h2 & l2 & H2 & Hmods2 & Hidx2 & Hs2 & Hf2).
  exists h2, (l1 ++ l2).
  assert (Hfail : failures (l1 ++ l2) = failures l1)
    by (rewrite failures_app, Hf2; lia).
  split; [|split; [|split; [|split]]].
  - unfold add_keys. eapply yields_bind; [exact H1|exact H2].
  - now rewrite logged_indices_app, Hidx, Hidx2, app_nil_r.
  - rewrite successes_app, Hs2, Hfail. lia.
  - exists left_over. rewrite Hmods2, Hfail. auto.
  - rewrite Hfail, Hmods2, Hmods. intros Hzero.
    rewrite Hzero in Hleft. destruct left_over; [|discriminate].
    now rewrite app_nil_r.
Qed.

Lemma add_keys_accounts_for_every_key_witness :
  exists hemisphere' l,
    yields (add_keys USER_SETTINGS failing_host
              {| data := {| verts := [(0, 0, 30)]; faces := [] |}; modifiers := [] |}
              [(cylinder_shape, (3, 4)); (square_shape, (- 5, 0))] true)
           (empty_world two_point_random) hemisphere' two_point_random l /\
    logged_indices l = [1%nat; 2%nat] /\
    (successes l + failures l = 2)%nat.
Proof.
  destruct (add_keys_accounts_for_every_key USER_SETTINGS failing_host
              {| data := {| verts := [(0, 0, 30)]; faces := [] |}; modifiers := [] |}
              [(cylinder_shape, (3, 4)); (square_shape, (- 5, 0))] true
              (empty_world two_point_random))
    as (h & l & Hy & Hidx & Hcount & _).
  - exact USER_radii_nonzero.
  - exists h, l. split; [exact Hy|]. split; [exact Hidx|exact Hcount].
Defined.

(** X9. Sequential accumulation: on a host whose boolean evaluation always
    succeeds, as a function [f] of the target's mesh and the modifier, the
    loop of [add_keys] leaves the mesh obtained by feeding the tools to
    [f] one after the other, in the order of the key specs, and the
    modifier stack it found. *)
Theorem keys_accumulate_in_order (cfg : Settings) (host : Host)
    (f : Mesh -> Modifier -> Mesh) (is_top : bool)
    (key_specs : list KeySpec) (keys : list Key) :
  (forall t m, modifier_apply host t m = Some (f (data t) m)) ->
  Forall2 (fun spec key => build_key cfg host is_top spec = Ok key) key_specs keys ->
  forall hemisphere i w,
  exists l,
    yields (add_keys_loop cfg host hemisphere i key_specs is_top) w
           {| data := fold_left
                        (fun mesh key =>
                           f mesh (bool_modifier key (key_operation is_top)))
                        keys (data hemisphere);
              modifiers := modifiers hemisphere |}
           (rng w) l /\
    failures l = 0%nat /\ successes l = length key_specs.
Proof.
  intros Hf Hkeys. induction Hkeys as [|spec key rest keys Hkey Hrest IH];
    intros hemisphere i w.
  - exists []. split; [|split; reflexivity].
    cbn [add_keys_loop fold_left]. destruct hemisphere. now apply yields_ret.
  - pose proof (add_key_built cfg host hemisphere i spec is_top key w Hkey) as Hstep.
    rewrite Hf in Hstep. unfold with_modifier in Hstep. cbn [data] in Hstep.
    destruct (IH {| data := f (data hemisphere)
                              (bool_modifier key (key_operation is_top));
                    modifiers := modifiers hemisphere |} (S i)
                 {| rng := rng w;
                    log := log w ++ [LogKey i (fst spec) (fst (snd spec)) (snd (snd spec));
                                     LogApplying (key_operation is_top);
                                     LogBooleanOk] |})
      as (l & Hy & Hfail & Hsucc).
    eexists. split; [|split].
    + cbn [add_keys_loop fold_left]. eapply yields_bind; [exact Hstep|exact Hy].
    + rewrite failures_app, Hfail. reflexivity.
    + rewrite successes_app, Hsucc. reflexivity.
Qed.

Lemma keys_accumulate_in_order_witness :
  exists key l,
    peg_key USER_SETTINGS appending_host cylinder_shape 3 4 = Ok key /\
    yields (add_keys_loop USER_SETTINGS appending_host
              {| data := {| verts := [(0, 0, 30)]; faces := [] |}; modifiers := [] |}
              1 [(cylinder_shape, (3, 4))] true)
           (empty_world two_point_random)
           {| data := {| verts := [(0, 0, 30)] ++ key_world_verts key; faces := [] |};
              modifiers := [] |}
           two_point_random l.
Proof.
  destruct (peg_key_ok USER_SETTINGS appending_host cylinder_shape 3 4)
    as (m & _ & Hkey).
  - unfold peg_radius. simpl. lra.
  - assert (Hkeys : Forall2
              (fun spec key => build_key USER_SETTINGS appending_host true spec = Ok key)
              [(cylinder_shape, (3, 4))]
              [{| key_data := m;
                  key_location := (3, 4, - (peg_height USER_SETTINGS / 2
                                            - OVERLAP USER_SETTINGS)) |}]).
    { apply Forall2_cons; [exact Hkey|apply Forall2_nil]. }
    destruct (keys_accumulate_in_order USER_SETTINGS appending_host
                (fun mesh m => {| verts := verts mesh ++ key_world_verts (mod_object m);
                                  faces := faces mesh |})
                true _ _ ltac:(intros; reflexivity) Hkeys
                {| data := {| verts := [(0, 0, 30)]; faces := [] |}; modifiers := [] |}
                1%nat (empty_world two_point_random))
      as (l & Hy & _).
    eexists. exists l. split; [exact Hkey|exact Hy].
Defined.

(** ** Further properties of the run *)

Lemma raises_bind_l {A B} (c : M A) (k : A -> M B) w e g l :
  raises c w e g l -> raises (bind c k) w e g l.
Proof.
  unfold raises, bind. now intros ->.
Qed.

Lemma raises_bind_r {A B} (c : M A) (k : A -> M B) w a g l e g' l' :
  yields c w a g l ->
  raises (k a) {| rng := g; log := log w ++ l |} e g' l' ->
  raises (bind c k) w e g' (l ++ l').
Proof.
  unfold yields, raises, bind. intros -> ->. cbn [log]. now rewrite app_assoc.
Qed.

Lemma raises_lift {A} (e : Exn) w g :
  g = rng w -> raises (@lift A (Raise e)) w e g [].
Proof.
  intros ->. unfold raises, lift. rewrite app_nil_r. now destruct w.
Qed.

Lemma peg_key_zero_radius cfg host x y :
  MAX_KEY_RADIUS cfg = 0 ->
  peg_key cfg host square_shape x y = Raise ZeroDivisionError.
Proof.
  intros Hr. unfold peg_key, peg_radius. rewrite Hr. cbn [SHAPE_FACTORIES].
  unfold square_prism.
  destruct (Req_dec_T (0 * 2) 0) as [_|Hne]; [reflexivity|exfalso; lra].
Qed.

Lemma add_keys_zero_radius cfg host hemisphere x y rest w :
  MAX_KEY_RADIUS cfg = 0 ->
  raises (add_keys cfg host hemisphere ((square_shape, (x, y)) :: rest) true) w
         ZeroDivisionError (rng w) ([LogKey 1 square_shape x y] ++ []).
Proof.
  intros Hr. unfold add_keys. apply raises_bind_l.
  cbn [add_keys_loop]. apply raises_bind_l.
  unfold add_key.
  eapply raises_bind_r; [now apply yields_log|].
  apply raises_bind_l. rewrite (peg_key_zero_radius cfg host x y Hr).
  now apply raises_lift.
Qed.

(** The first position of a run that asks for at least one. *)
Lemma random_key_positions_first cfg n g :
  (1 <= n)%nat ->
  exists rest,
    fst (random_key_positions cfg n g) = fst (candidate cfg g) :: rest.
Proof.
  intros Hn. rewrite random_key_positions_fst, place_run_first by exact Hn.
  destruct (place_loop_extends cfg 999 n [fst (candidate cfg g)] 1
              (snd (candidate cfg g))) as [rest ->].
  now exists rest.
Qed.

Lemma bead_step_zero_radius cfg host idx w shapes :
  MAX_KEY_RADIUS cfg = 0 ->
  KEY_SHAPES cfg = square_shape :: shapes ->
  exists g lh,
    raises (bead_step cfg host idx) w ZeroDivisionError g
           ([LogTopHalf idx] ++ lh
              ++ [LogKey 1 square_shape (fst (fst (candidate cfg (rng w))))
                         (snd (fst (candidate cfg (rng w))))]) /\
    forallb inside_half lh = true /\ evaluations lh = 0%nat /\ logged_keys lh = [].
Proof.
  intros Hr Hshapes.
  pose proof (with_random_yields (random_key_positions cfg (KEYS_PER_BEAD cfg)) w) as H0.
  destruct (random_key_positions_first cfg (KEYS_PER_BEAD cfg) (rng w)) as [rest Hfirst].
  { unfold KEYS_PER_BEAD. rewrite Hshapes. simpl. lia. }
  destruct (random_key_positions cfg (KEYS_PER_BEAD cfg) (rng w)) as [coords g'] eqn:Hrun.
  cbn [fst snd] in H0, Hfirst. subst coords.
  destruct (fst (candidate cfg (rng w))) as [x y] eqn:Hxy. cbn [fst snd].
  set (W1 := {| rng := g'; log := log w ++ [] |}) in *.
  set (W2 := {| rng := rng W1; log := log W1 ++ [LogTopHalf idx] |}).
  destruct (make_solid_hemisphere_yields cfg host true W2)
    as (top0 & lh & Hh & Hkh & Heh & Hih & _).
  set (W3 := {| rng := rng W2; log := log W2 ++ lh |}) in *.
  exists g', lh. split; [|auto].
  assert (Hchain :
    raises (bead_step cfg host idx) w ZeroDivisionError (rng W3)
           ([] ++ [LogTopHalf idx] ++ lh ++ [LogKey 1 square_shape x y] ++ [])).
  { unfold bead_step.
    eapply raises_bind_r; [exact H0|]. fold W1.
    rewrite Hshapes. cbn [combine].
    eapply raises_bind_r; [apply (yields_log _ W1 (rng W1) eq_refl)|]. fold W2.
    eapply raises_bind_r; [exact Hh|]. fold W3.
    apply raises_bind_l.
    apply (add_keys_zero_radius cfg host top0 x y _ W3 Hr). }
  unfold raises in *. rewrite Hchain. do 2 (try f_equal).
  all: cbn [app]; rewrite ?app_nil_r; reflexivity.
Qed.

(** X10. A zero key radius with the square as first shape: the first key of
    the first top half divides by zero; the run catches the exception,
    logs the critical error and the traceback and builds no bead.  Before
    that the log only holds the opening lines, the heading of the top half
    and the entries of its hemisphere: no boolean evaluation, no export,
    no closing line. *)
Theorem zero_radius_aborts_run (cfg : Settings) (host : Host)
    (log_opened : bool) (w : World) (shapes : list Shape) :
  MAX_KEY_RADIUS cfg = 0 ->
  KEY_SHAPES cfg = square_shape :: shapes ->
  (1 <= BEAD_COUNT cfg)%nat ->
  exists g lh,
    generate_beads cfg host true log_opened w =
      (None,
       {| rng := g;
          log := log w
                 ++ (if log_opened then [LogStarted; LogFileCreated] else [])
                 ++ [LogTopHalf 1] ++ lh
                 ++ [LogKey 1 square_shape
                       (fst (fst (candidate cfg
                                    {| draws := seeded host (SEED cfg); cursor := 0 |})))
                       (snd (fst (candidate cfg
                                    {| draws := seeded host (SEED cfg); cursor := 0 |})));
                     LogCritical; LogTraceback; LogTracebackText] |}) /\
    forallb inside_half lh = true /\ evaluations lh = 0%nat /\ logged_keys lh = [].
Proof.
  intros Hr Hshapes Hcount.
  unfold generate_beads. cbn [negb].
  set (w0 := if log_opened
             then {| rng := rng w; log := log w ++ [LogStarted; LogFileCreated] |}
             else w).
  set (g0 := {| draws := seeded host (SEED cfg); cursor := 0 |}).
  set (w1 := {| rng := g0; log := log w0 ++ [] |}).
  destruct (bead_step_zero_radius cfg host 1 w1 shapes Hr Hshapes)
    as (g & lh & Hstep & Hlh).
  change (rng w1) with g0 in Hstep.
  exists g, lh. split; [|exact Hlh].
  assert (Hrun :
    raises (seed_random cfg host ;;;
            beads <- bead_loop cfg host (seq 1 (BEAD_COUNT cfg)) ;;
            log_message LogFinished ;;;
            ret beads) w0 ZeroDivisionError g
           ([] ++ [LogTopHalf 1] ++ lh
              ++ [LogKey 1 square_shape (fst (fst (candidate cfg g0)))
                         (snd (fst (candidate cfg g0)))])).
  { eapply raises_bind_r.
    - apply seed_random_yields.
    - fold g0. fold w1. apply raises_bind_l.
      destruct (BEAD_COUNT cfg) as [|count]; [lia|].
      cbn [seq bead_loop]. apply raises_bind_l. exact Hstep. }
  unfold raises in Hrun. rewrite Hrun. cbn [rng log].
  destruct log_opened; subst w0; cbn [log app];
    repeat (rewrite <- app_assoc; cbn [app]); reflexivity.
Qed.

Lemma zero_radius_aborts_run_witness :
  exists w',
    generate_beads ZERO_RADIUS_SETTINGS failing_host true true
                   (empty_world two_point_random) = (None, w').
Proof.
  destruct (zero_radius_aborts_run ZERO_RADIUS_SETTINGS failing_host true
              (empty_world two_point_random) [cylinder_shape])
    as (g & lh & Hrun & _).
  - reflexivity.
  - reflexivity.
  - simpl. lia.
  - eexists. exact Hrun.
Defined.

(** *** The log only grows *)

Lemma grows_ret {A} (a : A) : grows (ret a).
Proof. intros w. exists []. cbn. now rewrite app_nil_r. Qed.

Lemma grows_log e : grows (log_message e).
Proof. intros w. now exists [e]. Qed.

Lemma grows_lift {A} (r : Result A) : grows (lift r).
Proof. intros w. exists []. cbn. now rewrite app_nil_r. Qed.

Lemma grows_with_random {A} (f : Random -> A * Random) : grows (with_random f).
Proof.
  intros w. exists []. unfold with_random. destruct (f (rng w)). cbn.
  now rewrite app_nil_r.
Qed.

Lemma grows_bind {A B} (c : M A) (k : A -> M B) :
  grows c -> (forall a, grows (k a)) -> grows (bind c k).
Proof.
  intros Hc Hk w. unfold bind. destruct (Hc w) as [l Hl].
  destruct (c w) as [[a|e] w'] eqn:Hcw; cbn [snd] in *.
  - destruct (Hk a w') as [l' Hl']. exists (l ++ l').
    now rewrite Hl', Hl, app_assoc.
  - now exists l.
Qed.

Lemma grows_log_then {A} (e : LogEntry) (c : M A) :
  grows c -> grows (log_message e ;;; c).
Proof.
  intros Hc. apply grows_bind; [apply grows_log|intros _; exact Hc].
Qed.

Lemma grows_boolean host target tool op : grows (boolean host target tool op).
Proof.
  unfold boolean. apply grows_log_then.
  destruct (modifier_apply host _ _); apply grows_log_then, grows_ret.
Qed.

Lemma grows_add_key cfg host hemisphere i spec is_top :
  grows (add_key cfg host hemisphere i spec is_top).
Proof.
  destruct spec as [shape [x y]]. unfold add_key.
  apply grows_bind; [apply grows_log|intros _].
  destruct is_top; (apply grows_bind; [apply grows_lift|intros key]);
    apply grows_boolean.
Qed.

Lemma grows_add_keys_loop cfg host key_specs is_top :
  forall hemisphere i, grows (add_keys_loop cfg host hemisphere i key_specs is_top).
Proof.
  induction key_specs as [|spec rest IH]; intros hemisphere i; cbn [add_keys_loop].
  - apply grows_ret.
  - apply grows_bind; [apply grows_add_key|intros h; apply IH].
Qed.

Lemma grows_mesh_cleanup host hemisphere : grows (mesh_cleanup host hemisphere).
Proof.
  unfold mesh_cleanup. apply grows_log_then.
  destruct (remove_doubles host _) as [m1|];
    [destruct (normals_make_consistent host m1)|];
    apply grows_log_then, grows_ret.
Qed.

Lemma grows_add_keys cfg host hemisphere key_specs is_top :
  grows (add_keys cfg host hemisphere key_specs is_top).
Proof.
  unfold add_keys.
  apply grows_bind; [apply grows_add_keys_loop|intros h; apply grows_mesh_cleanup].
Qed.

Lemma grows_make_solid_hemisphere cfg host is_top :
  grows (make_solid_hemisphere cfg host is_top).
Proof.
  unfold make_solid_hemisphere.
  apply grows_bind; [|intros hemisphere; apply grows_ret].
  destruct (ADD_SURFACE_NOISE cfg).
  - apply grows_log_then, grows_log_then, grows_ret.
  - apply grows_ret.
Qed.

Lemma grows_export_stl host obj is_top idx : grows (export_stl host obj is_top idx).
Proof.
  unfold export_stl. apply grows_bind; [apply grows_log|intros _].
  destruct (export_mesh_stl host obj); apply grows_log.
Qed.

Lemma grows_log_layout specs : grows (log_layout specs).
Proof.
  induction specs as [|[s [x y]] rest IH]; cbn [log_layout].
  - apply grows_ret.
  - apply grows_bind; [apply grows_log|intros _; exact IH].
Qed.

Lemma grows_bead_step cfg host idx : grows (bead_step cfg host idx).
Proof.
  unfold bead_step.
  apply grows_bind; [apply grows_with_random|intros coords].
  apply grows_bind; [apply grows_log|intros _].
  apply grows_bind; [apply grows_make_solid_hemisphere|intros top0].
  apply grows_bind; [apply grows_add_keys|intros top1].
  apply grows_bind; [apply grows_log|intros _].
  apply grows_bind; [apply grows_make_solid_hemisphere|intros bottom0].
  apply grows_bind; [apply grows_add_keys|intros bottom1].
  apply grows_bind; [apply grows_log|intros _].
  apply grows_bind; [apply grows_export_stl|intros _].
  apply grows_bind; [apply grows_export_stl|intros _].
  apply grows_bind; [apply grows_log|intros _].
  apply grows_bind; [apply grows_log_layout|intros _].
  apply grows_bind; [apply grows_log|intros _].
  apply grows_ret.
Qed.

Lemma grows_bead_loop cfg host idxs : grows (bead_loop cfg host idxs).
Proof.
  induction idxs as [|idx rest IH]; cbn [bead_loop].
  - apply grows_ret.
  - apply grows_bind; [apply grows_bead_step|intros b].
    apply grows_bind; [exact IH|intros bs]. apply grows_ret.
Qed.

Lemma grows_seed_random cfg host : grows (seed_random cfg host).
Proof. intros w. exists []. cbn. now rewrite app_nil_r. Qed.

(** X11. Whatever the host does, a run with an output directory keeps the
    entries the log had and appends to them; it either returns its beads,
    the log ending with the closing line, or returns none, the log ending
    with the critical error and the traceback. *)
Theorem run_closes_its_log (cfg : Settings) (host : Host)
    (log_opened : bool) (w : World) :
  exists l,
    (exists beads,
        fst (generate_beads cfg host true log_opened w) = Some beads /\
        log (snd (generate_beads cfg host true log_opened w)) =
          log w ++ l ++ [LogFinished]) \/
    (fst (generate_beads cfg host true log_opened w) = None /\
     log (snd (generate_beads cfg host true log_opened w)) =
       log w ++ l ++ [LogCritical; LogTraceback; LogTracebackText]).
Proof.
  unfold generate_beads. cbn [negb].
  set (w0 := if log_opened
             then {| rng := rng w; log := log w ++ [LogStarted; LogFileCreated] |}
             else w).
  assert (H0 : exists l0, log w0 = log w ++ l0).
  { destruct log_opened; subst w0.
    - now exists [LogStarted; LogFileCreated].
    - exists []. now rewrite app_nil_r. }
  destruct H0 as [l0 H0].
  set (ws := {| rng := {| draws := seeded host (SEED cfg); cursor := 0 |};
                log := log w0 |}).
  destruct (grows_bead_loop cfg host (seq 1 (BEAD_COUNT cfg)) ws) as [l Hl].
  change (log ws) with (log w0) in Hl.
  assert (Hrun :
    (seed_random cfg host ;;;
     beads <- bead_loop cfg host (seq 1 (BEAD_COUNT cfg)) ;;
     log_message LogFinished ;;;
     ret beads) w0 =
    match bead_loop cfg host (seq 1 (BEAD_COUNT cfg)) ws with
    | (Ok beads, w1) =>
        (Ok beads, {| rng := rng w1; log := log w1 ++ [LogFinished] |})
    | (Raise e, w1) => (Raise e, w1)
    end).
  { unfold bind at 1. unfold seed_random at 1. fold ws.
    unfold bind at 1.
    destruct (bead_loop cfg host (seq 1 (BEAD_COUNT cfg)) ws) as [[beads|e] w1];
      reflexivity. }
  rewrite Hrun.
  destruct (bead_loop cfg host (seq 1 (BEAD_COUNT cfg)) ws) as [[beads|e] w1];
    cbn [fst snd log] in *; exists (l0 ++ l).
  - left. exists beads. split; [reflexivity|].
    now rewrite Hl, H0, !app_assoc.
  - right. split; [reflexivity|].
    now rewrite Hl, H0, !app_assoc.
Qed.

(** *** Seeding *)

(** X12. The run seeds the generator before it draws: its beads, its log and
    the generator it leaves do not depend on the state of the generator
    it starts from. *)
Theorem run_ignores_prior_generator (cfg : Settings) (host : Host)
    (log_opened : bool) (g1 g2 : Random) (l : list LogEntry) :
  generate_beads cfg host true log_opened {| rng := g1; log := l |} =
  generate_beads cfg host true log_opened {| rng := g2; log := l |}.
Proof.
  unfold generate_beads. cbn [negb].
  unfold bind at 1 3. unfold seed_random at 1 2.
  destruct log_opened; reflexivity.
Qed.

Section Budget.

Variable cfg : Settings.
Variable host : Host.
Hypothesis Hradii : radii_nonzero cfg.

Lemma bead_step_budget idx w :
  exists pair g l,
    yields (bead_step cfg host idx) w pair g l /\
    draws g = draws (rng w) /\
    (cursor (rng w) <= cursor g <= cursor (rng w) + 2000)%nat.
Proof.
  destruct (bead_step_yields cfg host idx w Hradii)
    as (coords & g' & pair & top_log & bottom_log & tail_log & Hrun & Hstep & _).
  exists pair, g'. eexists. split; [exact Hstep|].
  assert (Hg : g' = snd (place_run cfg (KEYS_PER_BEAD cfg) (rng w))).
  { rewrite <- random_key_positions_snd, Hrun. reflexivity. }
  rewrite Hg. split; [apply place_run_draws|].
  rewrite place_run_cursor.
  pose proof (place_run_attempts cfg (KEYS_PER_BEAD cfg) (rng w)). lia.
Qed.

Lemma bead_loop_budget idxs :
  forall w, exists beads g l,
    yields (bead_loop cfg host idxs) w beads g l /\
    length beads = length idxs /\
    draws g = draws (rng w) /\
    (cursor (rng w) <= cursor g <= cursor (rng w) + 2000 * length idxs)%nat.
Proof.
  induction idxs as [|idx rest IH]; intros w.
  - exists [], (rng w), []. split; [now apply yields_ret|].
    split; [reflexivity|]. split; [reflexivity|]. simpl. lia.
  - destruct (bead_step_budget idx w) as (pair & g1 & l1 & Hstep & Hd1 & Hc1).
    destruct (IH {| rng := g1; log := log w ++ l1 |})
      as (beads & g & l & Hloop & Hlen & Hd & Hc).
    cbn [rng] in Hd, Hc.
    exists (pair :: beads), g. eexists. split; [|split; [|split]].
    + cbn [bead_loop].
      eapply yields_bind; [exact Hstep|].
      eapply yields_bind; [exact Hloop|].
      now apply yields_ret.
    + simpl. now rewrite Hlen.
    + now rewrite Hd, Hd1.
    + cbn [length]. lia.
Qed.

End Budget.

(** X13. Draw budget: a run that divides by no zero radius builds BEAD_COUNT
    beads and leaves the generator on the stream of the seed, at most
    2000 draws per bead into it. *)
Theorem run_draw_budget (cfg : Settings) (host : Host) (log_opened : bool)
    (w : World) :
  radii_nonzero cfg ->
  exists beads w',
    generate_beads cfg host true log_opened w = (Some beads, w') /\
    length beads = BEAD_COUNT cfg /\
    draws (rng w') = seeded host (SEED cfg) /\
    (cursor (rng w') <= 2000 * BEAD_COUNT cfg)%nat.
Proof.
  intros Hnz. unfold generate_beads. cbn [negb].
  set (w0 := if log_opened
             then {| rng := rng w; log := log w ++ [LogStarted; LogFileCreated] |}
             else w).
  set (w1 := {| rng := {| draws := seeded host (SEED cfg); cursor := 0 |};
                log := log w0 ++ [] |}).
  destruct (bead_loop_budget cfg host Hnz (seq 1 (BEAD_COUNT cfg)) w1)
    as (beads & g & l & Hloop & Hlen & Hd & Hc).
  rewrite length_seq in Hlen, Hc. cbn [rng draws cursor w1] in Hd, Hc.
  assert (Hrun : yields (seed_random cfg host ;;;
                         beads <- bead_loop cfg host (seq 1 (BEAD_COUNT cfg)) ;;
                         log_message LogFinished ;;;
                         ret beads) w0 beads g ([] ++ l ++ [LogFinished] ++ [])).
  { eapply yields_bind; [apply seed_random_yields|]. fold w1.
    eapply yields_bind; [exact Hloop|].
    eapply yields_bind; [now apply yields_log|].
    now apply yields_ret. }
  unfold yields in Hrun. rewrite Hrun.
  exists beads. eexists. split; [reflexivity|]. cbn [rng].
  split; [exact Hlen|]. split; [exact Hd|]. lia.
Qed.

Lemma run_draw_budget_witness :
  exists beads w',
    generate_beads USER_SETTINGS failing_host true true
                   (empty_world two_point_random) = (Some beads, w') /\
    length beads = 4%nat /\
    (cursor (rng w') <= 2000 * 4)%nat.
Proof.
  destruct (run_draw_budget USER_SETTINGS failing_host true
              (empty_world two_point_random))
    as (beads & w' & Hrun & Hlen & _ & Hc).
  - exact USER_radii_nonzero.
  - exists beads, w'. split; [exact Hrun|]. split; [exact Hlen|exact Hc].
Defined.

(** ** The output directory *)


